(** * A binary-heap priority queue over a vector: model and verification

    Shallow embedding of [src/priority_queue.h] (namespace [custom],
    class [priority_queue<T, Container, Compare>]).

    - [size_t] is taken to be 64 bits wide. Its values are integers of [Z]
      in the range [0 .. SIZE_MAX]; every arithmetic operation of the source
      on them is followed by [wrap], the reduction modulo [2^64].
    - The underlying container (a [custom::vector<T>] by default) is a
      [list T]; [operator[]] outside the stored range is undefined behaviour
      and is reported by the outcome [Undefined]. An array object occupies at
      most [PTRDIFF_MAX = SIZE_MAX / 2] bytes, so a container holds at most
      [HALF_MAX] elements; statements about a container assume this bound.
    - [Compare] is an arbitrary type of comparator objects, with a
      default-constructed instance and a call operator.
    - Member functions that can throw, read outside the storage or recurse
      return a [result]. *)

From Stdlib Require Import ZArith Lia Bool Sorting.Sorted.
From stdpp Require Import base tactics option list.

Local Open Scope Z_scope.

(** [lia] also decides goals with division by a constant. *)
Ltac Zify.zify_post_hook ::= Z.to_euclidean_division_equations.

(** ** Outcomes of a call *)

Inductive exception : Type :=
| out_of_range.

Inductive result (A : Type) : Type :=
| Returns (a : A)          (* normal return *)
| Throws (e : exception)   (* the call is left by a C++ exception *)
| Undefined                (* an element access outside the storage *)
| NoFuel.                  (* the recursion budget of the model ran out *)

Arguments Returns {A} a.
Arguments Throws {A} e.
Arguments Undefined {A}.
Arguments NoFuel {A}.

Definition bind {A B : Type} (r : result A) (k : A -> result B) : result B :=
  match r with
  | Returns a => k a
  | Throws e => Throws e
  | Undefined => Undefined
  | NoFuel => NoFuel
  end.

Notation "'do' x <- r ; k" := (bind r (fun x => k))
  (at level 10, x pattern, r at level 100, k at level 200).

(** ** [size_t] *)

Module SizeT.

Definition modulus : Z := 2 ^ 64.
Definition SIZE_MAX : Z := modulus - 1.

(** Unsigned arithmetic is performed modulo [2^64]. *)
Definition wrap (z : Z) : Z := z mod modulus.

(** The largest index whose children [2i] and [2i+1] are still
    representable; it is also [PTRDIFF_MAX], the largest number of elements
    an array can hold. *)
Definition HALF_MAX : Z := SIZE_MAX / 2.

End SizeT.
Import SizeT.

(** ** The storage collaborator

    [vector.h], which declares the default container [custom::vector], is
    not among the sources. The operations the queue calls on its container
    follow the contract of the specification: a resizable, random-access,
    zero-based sequence with a size query, an empty query, indexed read and
    write access, append at the end and removal of the last element. *)

Section Container.

Context {T : Type}.

(** Modelled from the spec: the size query [c.size()] of the storage
    ([vector.h] is missing). *)
Definition size (c : list T) : Z := Z.of_nat (length c).

(** Modelled from the spec: the empty query [c.empty()] of the storage
    ([vector.h] is missing). *)
Definition empty (c : list T) : bool := size c =? 0.

(** Modelled from the spec: indexed read access [c[k]] of the storage
    ([vector.h] is missing); an index outside [0 .. size() - 1] is an access
    outside the storage. The range test comes first so that huge wrapped
    indices are never converted to [nat]. *)
Definition at_ (c : list T) (k : Z) : result T :=
  if (0 <=? k) && (k <? size c) then
    match c !! Z.to_nat k with
    | Some x => Returns x
    | None => Undefined
    end
  else Undefined.

(** Modelled from the spec: indexed write access [c[k] = x] of the storage
    ([vector.h] is missing). *)
Definition set_at (c : list T) (k : Z) (x : T) : result (list T) :=
  if (0 <=? k) && (k <? size c) then Returns (<[Z.to_nat k := x]> c)
  else Undefined.

(** [std::swap(c[i], c[j])]: both elements are read, then both written. *)
Definition swap_at (c : list T) (i j : Z) : result (list T) :=
  do x <- at_ c i;
  do y <- at_ c j;
  do c1 <- set_at c i y;
  set_at c1 j x.

(** Modelled from the spec: append at the end, [c.push_back(t)]
    ([vector.h] is missing). Growth of the storage always succeeds. *)
Definition push_back (c : list T) (t : T) : list T := c ++ [t].

(** Modelled from the spec: removal of the last element, [c.pop_back()]
    ([vector.h] is missing); the queue calls it on a non-empty container
    only. *)
Definition pop_back (c : list T) : list T := removelast c.

(** Modelled from the spec: access to the first element, [c.front()]
    ([vector.h] is missing). *)
Definition front (c : list T) : result T := at_ c 0.

End Container.

(** ** The priority queue *)

Section PriorityQueue.

Context {T : Type}.

(** The comparator type, its default constructor [Compare()] and its
    call operator. *)
Context {Compare : Type}.
Variable Compare_default : Compare.
Variable call : Compare -> T -> T -> bool.

Record priority_queue : Type := {
  container : list T;
  compare : Compare
}.

(** A constructor argument [const Compare& c = Compare()]. *)
Definition default_arg (c : option Compare) : Compare :=
  match c with
  | Some c => c
  | None => Compare_default
  end.

(** *** percolateDown *)

(** The body of [percolateDown] up to its recursive call: [None] when the
    function is about to return [false], [Some (c', indexBigger)] when
    parent and child were swapped and the recursion continues at
    [indexBigger]. *)
Definition percolate_step (cmp : T -> T -> bool) (c : list T) (indexHeap : Z)
  : result (option (list T * Z)) :=
  let indexLeft := wrap (indexHeap * 2) in
  let indexRight := wrap (indexLeft + 1) in
  do rightWins <-
    (if indexRight <=? size c then
       do l <- at_ c (wrap (indexLeft - 1));
       do r <- at_ c (wrap (indexRight - 1));
       Returns (cmp l r)
     else Returns false);
  let indexBigger := if rightWins then indexRight else indexLeft in
  do violated <-
    (if indexBigger <=? size c then
       do p <- at_ c (wrap (indexHeap - 1));
       do b <- at_ c (wrap (indexBigger - 1));
       Returns (cmp p b)
     else Returns false);
  if violated then
    do c' <- swap_at c (wrap (indexHeap - 1)) (wrap (indexBigger - 1));
    Returns (Some (c', indexBigger))
  else Returns None.

Fixpoint percolateDown_fuel (fuel : nat) (cmp : T -> T -> bool)
    (c : list T) (indexHeap : Z) : result (list T * bool) :=
  do s <- percolate_step cmp c indexHeap;
  match s with
  | None => Returns (c, false)
  | Some (c', indexBigger) =>
      match fuel with
      | O => NoFuel
      | S fuel' =>
          do r <- percolateDown_fuel fuel' cmp c' indexBigger;
          Returns (fst r, true)
      end
  end.

(** Every recursive call is at a strictly larger index that is at most
    [size()], so [size()] recursive calls are never exceeded on a
    container that fits the address space. *)
Definition percolateDown (cmp : T -> T -> bool) (c : list T) (indexHeap : Z)
  : result (list T * bool) :=
  percolateDown_fuel (length c) cmp c indexHeap.

(** *** heapify *)

(** The loop [for (indexHeap = num / 2; indexHeap >= 1; indexHeap--)],
    by recursion on the counter. *)
Fixpoint heapify_loop (cmp : T -> T -> bool) (indexHeap : nat) (c : list T)
  : result (list T) :=
  match indexHeap with
  | O => Returns c
  | S n =>
      do r <- percolateDown cmp c (Z.of_nat indexHeap);
      heapify_loop cmp n (fst r)
  end.

Definition heapify_container (cmp : T -> T -> bool) (c : list T) : result (list T) :=
  let num := size c in
  heapify_loop cmp (Z.to_nat (num / 2)) c.

(** *** push *)

(** The loop [while (index && percolateDown(index)) index = index / 2].
    An index below [2^64] reaches zero after at most 64 halvings, which is
    what [fuel] counts. *)
Fixpoint push_loop (fuel : nat) (cmp : T -> T -> bool) (c : list T) (index : Z)
  : result (list T) :=
  if index =? 0 then Returns c
  else
    do r <- percolateDown cmp c index;
    if snd r then
      match fuel with
      | O => NoFuel
      | S fuel' => push_loop fuel' cmp (fst r) (index / 2)
      end
    else Returns (fst r).

Definition push_container (cmp : T -> T -> bool) (c : list T) (t : T) : result (list T) :=
  let c1 := push_back c t in
  let index := size c1 / 2 in
  push_loop 64 cmp c1 index.

(** *** pop *)

Definition pop_container (cmp : T -> T -> bool) (c : list T) : result (list T) :=
  if empty c then Returns c
  else
    do c1 <- swap_at c 0 (wrap (size c - 1));
    let c2 := pop_back c1 in
    do r <- percolateDown cmp c2 1;
    Returns (fst r).

(** *** The member functions on the queue object *)

Definition with_container (q : priority_queue) (c : list T) : priority_queue :=
  {| container := c; compare := compare q |}.

Definition pq_size (q : priority_queue) : Z := size (container q).
Definition pq_empty (q : priority_queue) : bool := empty (container q).

Definition top (q : priority_queue) : result T :=
  if negb (pq_empty q) then front (container q)
  else Throws out_of_range.

(** Both overloads of [push] run the same statements. *)
Definition push (q : priority_queue) (t : T) : result priority_queue :=
  do c <- push_container (call (compare q)) (container q) t;
  Returns (with_container q c).

Definition pop (q : priority_queue) : result priority_queue :=
  do c <- pop_container (call (compare q)) (container q);
  Returns (with_container q c).

Definition heapify (q : priority_queue) : result priority_queue :=
  do c <- heapify_container (call (compare q)) (container q);
  Returns (with_container q c).

(** *** Constructors *)

(** [priority_queue(const Compare& c = Compare())] *)
Definition pq_new (c : option Compare) : priority_queue :=
  {| container := []; compare := default_arg c |}.

(** [priority_queue(const priority_queue& rhs, const Compare& c = Compare())] *)
Definition pq_copy (rhs : priority_queue) (c : option Compare) : priority_queue :=
  {| container := container rhs; compare := default_arg c |}.

(** [priority_queue(priority_queue&& rhs, const Compare& c = Compare())];
    the storage of [rhs] is handed over as it is. *)
Definition pq_move (rhs : priority_queue) (c : option Compare) : priority_queue :=
  {| container := container rhs; compare := default_arg c |}.

(** [priority_queue(Iterator first, Iterator last, const Compare& c = Compare())];
    [reserve] changes the capacity only. *)
Fixpoint push_range (q : priority_queue) (range : list T) : result priority_queue :=
  match range with
  | [] => Returns q
  | t :: rest => do q' <- push q t; push_range q' rest
  end.

Definition pq_of_range (range : list T) (c : option Compare) : result priority_queue :=
  push_range {| container := []; compare := default_arg c |} range.

(** [priority_queue(const Compare& c, Container&& rhs)] *)
Definition pq_of_container (c : Compare) (rhs : list T) : result priority_queue :=
  heapify {| container := rhs; compare := c |}.

(** [priority_queue(const Compare& c, Container& rhs)] *)
Definition pq_adopt (c : Compare) (rhs : list T) : priority_queue :=
  {| container := rhs; compare := c |}.

(** *** swap *)

Definition std_swap {A : Type} (a b : A) : A * A := (b, a).

Definition swap (lhs rhs : priority_queue) : priority_queue * priority_queue :=
  let '(lc, rc) := std_swap (container lhs) (container rhs) in
  let '(lk, rk) := std_swap (compare lhs) (compare rhs) in
  ({| container := lc; compare := lk |}, {| container := rc; compare := rk |}).

(** *** Client loops used to observe a queue *)

(** [while (!q.empty()) { out.push_back(q.top()); q.pop(); }], at most
    [n] rounds. *)
Fixpoint drain (n : nat) (q : priority_queue) : result (list T) :=
  if pq_empty q then Returns []
  else
    match n with
    | O => NoFuel
    | S n' =>
        do x <- top q;
        do q' <- pop q;
        do rest <- drain n' q';
        Returns (x :: rest)
    end.

Definition pop_sequence (q : priority_queue) : result (list T) :=
  drain (length (container q)) q.

Inductive op : Type :=
| Push (t : T)
| Pop.

Definition apply_op (q : priority_queue) (o : op) : result priority_queue :=
  match o with
  | Push t => push q t
  | Pop => pop q
  end.

Fixpoint run (q : priority_queue) (ops : list op) : result priority_queue :=
  match ops with
  | [] => Returns q
  | o :: rest => do q' <- apply_op q o; run q' rest
  end.

End PriorityQueue.

Arguments priority_queue : clear implicits.
Arguments op : clear implicits.

(** ** Instances used in the examples *)

(** [std::less<int>] and [std::greater<int>] are stateless. *)
Inductive std_less : Type := Less.
Inductive std_greater : Type := Greater.

Definition call_less (_ : std_less) (a b : Z) : bool := a <? b.
Definition call_greater (_ : std_greater) (a b : Z) : bool := b <? a.

Definition sample : list Z := [5; 3; 8; 1; 9; 2].

(** A comparator object with state: one type, two possible orderings. *)
Record ordered_by : Type := { descending : bool }.

Definition call_ordered_by (o : ordered_by) (a b : Z) : bool :=
  if descending o then b <? a else a <? b.

(** Records ranked by their key only: distinct records can be equivalent. *)
Definition call_by_key (_ : std_less) (a b : Z * Z) : bool := fst a <? fst b.

(** Records with equal keys, told apart by their second component. *)
Definition records : list (Z * Z) := [(1, 0); (1, 1); (2, 2); (2, 3)].

(** A min-heap held by a queue whose comparator object is flagged
    [descending]. *)
Definition min_queue : priority_queue Z ordered_by :=
  {| container := [1; 2; 3]; compare := {| descending := true |} |}.

Definition ascending : ordered_by := {| descending := false |}.

(** ** Specification vocabulary *)

Section Spec.

Context {T : Type}.
Variable cmp : T -> T -> bool.

(** The requirements of C++ on [Compare]: a strict weak ordering. *)
Record strict_weak_order : Prop := {
  swo_irrefl : forall x, cmp x x = false;
  swo_trans : forall x y z, cmp x y = true -> cmp y z = true -> cmp x z = true;
  swo_equiv_trans : forall x y z,
    cmp x y = false -> cmp y x = false ->
    cmp y z = false -> cmp z y = false ->
    cmp x z = false /\ cmp z x = false
}.

(** Neither element ranks below the other. *)
Definition equivalent (x y : T) : Prop := cmp x y = false /\ cmp y x = false.

(** Equivalent elements are equal: the ordering is total. *)
Definition total_order : Prop :=
  forall x y, cmp x y = false -> cmp y x = false -> x = y.

(** The element at the 1-based heap position [i]. *)
Definition node (c : list T) (i : Z) : option T := c !! Z.to_nat (i - 1).

(** The parent at heap position [i] does not rank below a child that
    exists. *)
Definition heap_at (c : list T) (i : Z) : Prop :=
  forall ch x y,
    ch = 2 * i \/ ch = 2 * i + 1 ->
    node c i = Some x -> node c ch = Some y -> cmp x y = false.

Definition is_heap (c : list T) : Prop :=
  forall i, 1 <= i -> heap_at c i.

(** The same test as a program. *)
Definition child_ok (c : list T) (x : T) (ch : nat) : bool :=
  match c !! (ch - 1)%nat with
  | Some y => negb (cmp x y)
  | None => true
  end.

Definition heap_atb (c : list T) (i : nat) : bool :=
  match c !! (i - 1)%nat with
  | Some x => child_ok c x (2 * i) && child_ok c x (2 * i + 1)
  | None => true
  end.

Definition is_heapb (c : list T) : bool :=
  forallb (heap_atb c) (seq 1 (length c)).

(** What [top] answers on a queue that is about to be emptied into [out]. *)
Definition first_of (out : list T) : result T :=
  match out with
  | [] => Throws out_of_range
  | x :: _ => Returns x
  end.

(** No element ranks below a later one. *)
Definition sorted_desc (l : list T) : Prop :=
  StronglySorted (fun a b => cmp a b = false) l.

(** The child that the first conditional of [percolateDown] selects when
    no index computation wraps. *)
Definition bigger_child (c : list T) (i : Z) : Z :=
  match node c (2 * i), node c (2 * i + 1) with
  | Some l, Some r => if cmp l r then 2 * i + 1 else 2 * i
  | _, _ => 2 * i
  end.

(** The container after [swap(container[i - 1], container[b - 1])], where
    [x] was at [i] and [y] at [b]. *)
Definition exchanged (c : list T) (i b : Z) (x y : T) : list T :=
  <[Z.to_nat (b - 1) := x]> (<[Z.to_nat (i - 1) := y]> c).

(** The storage after the swap of first and last element and [pop_back]. *)
Definition root_replaced (c : list T) (x y : T) : list T :=
  pop_back (exchanged c 1 (size c) x y).

End Spec.

(** The invariant of the class. *)
Definition heap_ordered {T Compare : Type} (call : Compare -> T -> T -> bool)
    (q : priority_queue T Compare) : Prop :=
  is_heap (call (compare q)) (container q).

(** The size a queue of [n] elements has after a sequence of calls: a [push]
    adds one element, a [pop] removes one unless the queue is empty. *)
Fixpoint size_after {T : Type} (n : Z) (ops : list (op T)) : Z :=
  match ops with
  | [] => n
  | Push _ :: rest => size_after (n + 1) rest
  | Pop :: rest => size_after (Z.max 0 (n - 1)) rest
  end.

(** ** Facts about [size_t] and the container *)

Lemma wrap_small z : 0 <= z <= SIZE_MAX -> wrap z = z.
Proof.
  unfold wrap, SIZE_MAX, modulus. intros H.
  apply Z.mod_small. lia.
Qed.

Lemma HALF_MAX_val : HALF_MAX = 2 ^ 63 - 1.
Proof. reflexivity. Qed.

Lemma SIZE_MAX_val : SIZE_MAX = 2 ^ 64 - 1.
Proof. reflexivity. Qed.

Section ContainerFacts.

Context {T : Type}.
Implicit Types (c : list T) (k i j : Z) (x y : T).

Lemma size_nonneg c : 0 <= size c.
Proof. unfold size. lia. Qed.

Lemma at_lookup c k x :
  0 <= k -> c !! Z.to_nat k = Some x -> at_ c k = Returns x.
Proof.
  intros Hk Hx. unfold at_, size.
  pose proof (lookup_lt_Some _ _ _ Hx) as Hlt.
  replace (0 <=? k) with true by (symmetry; apply Z.leb_le; lia).
  replace (k <? Z.of_nat (length c)) with true by (symmetry; apply Z.ltb_lt; lia).
  simpl. now rewrite Hx.
Qed.

Lemma at_outside c k : ~ (0 <= k < size c) -> at_ c k = Undefined.
Proof.
  intros Hk. unfold at_.
  destruct (0 <=? k) eqn:H0; [|done].
  destruct (k <? size c) eqn:H1; [|done].
  apply Z.leb_le in H0. apply Z.ltb_lt in H1. lia.
Qed.

Lemma at_not_Throws c k e : at_ c k <> Throws e.
Proof.
  unfold at_. destruct (_ && _); [|done]. by destruct (c !! _).
Qed.

Lemma at_not_NoFuel c k : at_ c k <> NoFuel.
Proof.
  unfold at_. destruct (_ && _); [|done]. by destruct (c !! _).
Qed.

Lemma set_at_in_bounds c k x :
  0 <= k < size c -> set_at c k x = Returns (<[Z.to_nat k := x]> c).
Proof.
  intros Hk. unfold set_at.
  replace (0 <=? k) with true by (symmetry; apply Z.leb_le; lia).
  replace (k <? size c) with true by (symmetry; apply Z.ltb_lt; lia).
  done.
Qed.

Lemma size_insert c (n : nat) x : size (<[n := x]> c) = size c.
Proof. unfold size. by rewrite length_insert. Qed.

Lemma swap_at_lookup c i j x y :
  0 <= i -> 0 <= j ->
  c !! Z.to_nat i = Some x -> c !! Z.to_nat j = Some y ->
  swap_at c i j = Returns (<[Z.to_nat j := x]> (<[Z.to_nat i := y]> c)).
Proof.
  intros Hi Hj Hx Hy. unfold swap_at.
  rewrite (at_lookup c i x), (at_lookup c j y) by done. simpl.
  pose proof (lookup_lt_Some _ _ _ Hx). pose proof (lookup_lt_Some _ _ _ Hy).
  rewrite set_at_in_bounds by (unfold size; lia). simpl.
  apply set_at_in_bounds. rewrite size_insert. unfold size. lia.
Qed.

Lemma swap_at_not_Throws c i j e : swap_at c i j <> Throws e.
Proof.
  unfold swap_at, set_at.
  destruct (at_ c i) eqn:E1; simpl; try done; [|by apply at_not_Throws in E1].
  destruct (at_ c j) eqn:E2; simpl; try done; [|by apply at_not_Throws in E2].
  destruct (_ && _); simpl; [|done]. by destruct (_ && _).
Qed.

Lemma swap_at_not_NoFuel c i j : swap_at c i j <> NoFuel.
Proof.
  unfold swap_at, set_at.
  destruct (at_ c i) eqn:E1; simpl; try done; [|by apply at_not_NoFuel in E1].
  destruct (at_ c j) eqn:E2; simpl; try done; [|by apply at_not_NoFuel in E2].
  destruct (_ && _); simpl; [|done]. by destruct (_ && _).
Qed.

(** Exchanging two stored elements permutes the list. *)
Lemma insert_head_Permutation c (n : nat) x y :
  c !! n = Some y -> y :: <[n := x]> c ≡ₚ x :: c.
Proof.
  revert n. induction c as [|a c IH]; intros [|n] Hy; simplify_eq/=.
  - apply Permutation_swap.
  - rewrite (Permutation_swap a y), (IH n Hy). apply Permutation_swap.
Qed.

Lemma exchange_Permutation c (n m : nat) x y :
  c !! n = Some x -> c !! m = Some y ->
  <[m := x]> (<[n := y]> c) ≡ₚ c.
Proof.
  revert n m. induction c as [|a c IH]; intros [|n] [|m] Hx Hy; simplify_eq/=.
  - done.
  - by apply insert_head_Permutation.
  - by apply insert_head_Permutation.
  - f_equiv. by apply IH.
Qed.

Lemma lookup_removelast c (n : nat) :
  removelast c !! n = if decide (n < length c - 1)%nat then c !! n else None.
Proof.
  rewrite removelast_firstn_len.
  case_decide.
  - apply lookup_take_lt. lia.
  - apply lookup_take_ge. lia.
Qed.

Lemma length_removelast c : length (removelast c) = (length c - 1)%nat.
Proof. rewrite removelast_firstn_len, length_take. lia. Qed.

End ContainerFacts.

(** ** Heap positions *)

Section NodeFacts.

Context {T : Type}.
Implicit Types (c : list T) (i j p : Z) (x y : T).

Lemma node_Some_le c j x : node c j = Some x -> j <= size c.
Proof.
  unfold node, size. intros H. apply lookup_lt_Some in H. lia.
Qed.

Lemma node_is_Some c j : 1 <= j <= size c -> exists x, node c j = Some x.
Proof.
  unfold node, size. intros H.
  apply lookup_lt_is_Some_2. lia.
Qed.

Lemma node_None c j : size c < j -> node c j = None.
Proof.
  unfold node, size. intros H. apply lookup_ge_None_2. lia.
Qed.

Lemma at_pred c j :
  1 <= j ->
  at_ c (j - 1) = match node c j with Some x => Returns x | None => Undefined end.
Proof.
  intros Hj. destruct (node c j) as [x|] eqn:E.
  - apply at_lookup; [lia|done].
  - apply at_outside. unfold node, size in *.
    apply lookup_ge_None_1 in E. lia.
Qed.

Lemma node_exchanged c i b x y p :
  1 <= i -> 1 <= b -> 1 <= p ->
  node c i = Some x -> node c b = Some y ->
  node (exchanged c i b x y) p =
    if decide (p = b) then Some x
    else if decide (p = i) then Some y
    else node c p.
Proof.
  intros Hi Hb Hp Hx Hy. unfold exchanged, node in *.
  pose proof (lookup_lt_Some _ _ _ Hx). pose proof (lookup_lt_Some _ _ _ Hy).
  case_decide as Hpb.
  - subst p. apply list_lookup_insert_eq. by rewrite length_insert.
  - rewrite list_lookup_insert_ne by lia.
    case_decide as Hpi.
    + subst p. by apply list_lookup_insert_eq.
    + apply list_lookup_insert_ne. lia.
Qed.

Lemma length_exchanged c i b x y : length (exchanged c i b x y) = length c.
Proof. unfold exchanged. by rewrite !length_insert. Qed.

Lemma size_exchanged c i b x y : size (exchanged c i b x y) = size c.
Proof. unfold size. by rewrite length_exchanged. Qed.

Lemma exchanged_Permutation c i b x y :
  node c i = Some x -> node c b = Some y -> exchanged c i b x y ≡ₚ c.
Proof. intros Hx Hy. by apply exchange_Permutation. Qed.

Lemma swap_at_exchanged c i b x y :
  1 <= i -> 1 <= b ->
  node c i = Some x -> node c b = Some y ->
  swap_at c (i - 1) (b - 1) = Returns (exchanged c i b x y).
Proof. intros Hi Hb Hx Hy. apply swap_at_lookup; [lia|lia|done|done]. Qed.

End NodeFacts.

(** ** One activation of [percolateDown] *)

Section StepFacts.

Context {T : Type}.
Variable cmp : T -> T -> bool.
Implicit Types (c : list T) (i j p b : Z) (x y : T).

Lemma bigger_child_cases c i :
  bigger_child cmp c i = 2 * i \/ bigger_child cmp c i = 2 * i + 1.
Proof.
  unfold bigger_child.
  destruct (node c (2 * i)), (node c (2 * i + 1)); auto.
  destruct (cmp _ _); auto.
Qed.

(** When no index computation wraps, the body of [percolateDown] reads the
    parent and the selected child, and swaps them when the parent ranks
    below the child. *)
Lemma percolate_step_nowrap c i :
  1 <= i <= HALF_MAX ->
  percolate_step cmp c i =
    let b := bigger_child cmp c i in
    match node c i, node c b with
    | Some x, Some y =>
        if cmp x y then Returns (Some (exchanged c i b x y, b)) else Returns None
    | _, _ => Returns None
    end.
Proof.
  intros Hi. rewrite HALF_MAX_val in Hi.
  unfold percolate_step, bigger_child.
  replace (i * 2) with (2 * i) by lia.
  rewrite (wrap_small (2 * i)) by (rewrite SIZE_MAX_val; lia).
  rewrite (wrap_small (2 * i + 1)) by (rewrite SIZE_MAX_val; lia).
  rewrite (wrap_small (2 * i - 1)) by (rewrite SIZE_MAX_val; lia).
  rewrite (wrap_small (2 * i + 1 - 1)) by (rewrite SIZE_MAX_val; lia).
  rewrite (wrap_small (i - 1)) by (rewrite SIZE_MAX_val; lia).
  rewrite !at_pred by lia.
  destruct (Z.leb_spec (2 * i + 1) (size c)) as [Hr|Hr].
  - destruct (node_is_Some c (2 * i)) as [l Hl]; [lia|].
    destruct (node_is_Some c (2 * i + 1)) as [r Hr']; [lia|].
    destruct (node_is_Some c i) as [x Hx]; [lia|].
    rewrite Hl, Hr', Hx. simpl.
    destruct (cmp l r); simpl.
    + rewrite (wrap_small (2 * i + 1 - 1)) by (rewrite SIZE_MAX_val; lia).
      destruct (Z.leb_spec (2 * i + 1) (size c)); [|lia].
      rewrite at_pred, Hr' by lia. simpl.
      destruct (cmp x r); [|done].
      rewrite (swap_at_exchanged c i (2 * i + 1) x r) by (done || lia). done.
    + rewrite (wrap_small (2 * i - 1)) by (rewrite SIZE_MAX_val; lia).
      destruct (Z.leb_spec (2 * i) (size c)); [|lia].
      rewrite at_pred, Hl by lia. simpl.
      destruct (cmp x l); [|done].
      rewrite (swap_at_exchanged c i (2 * i) x l) by (done || lia). done.
  - rewrite (node_None c (2 * i + 1)) by lia. simpl.
    rewrite (wrap_small (2 * i - 1)) by (rewrite SIZE_MAX_val; lia).
    assert (Hb : (match node c (2 * i) with Some _ | _ => 2 * i end) = 2 * i)
      by (by destruct (node c (2 * i))).
    rewrite Hb.
    destruct (Z.leb_spec (2 * i) (size c)) as [Hl|Hl].
    + destruct (node_is_Some c (2 * i)) as [l Hl']; [lia|].
      destruct (node_is_Some c i) as [x Hx]; [lia|].
      rewrite at_pred, Hl', Hx by lia. simpl.
      destruct (cmp x l); [|done].
      rewrite (swap_at_exchanged c i (2 * i) x l) by (done || lia). done.
    + rewrite (node_None c (2 * i)) by lia. simpl.
      by destruct (node c i).
Qed.

End StepFacts.

(** ** Consequences of a strict weak ordering *)

Section OrderFacts.

Context {T : Type}.
Variable cmp : T -> T -> bool.
Hypothesis swo : strict_weak_order cmp.

Lemma swo_asym x y : cmp x y = true -> cmp y x = false.
Proof.
  intros Hxy. destruct (cmp y x) eqn:Hyx; [|done].
  pose proof (swo_trans cmp swo x y x Hxy Hyx) as H.
  by rewrite (swo_irrefl cmp swo) in H.
Qed.

(** "Not below" is transitive. *)
Lemma swo_neg_trans x y z :
  cmp x y = false -> cmp y z = false -> cmp x z = false.
Proof.
  intros Hxy Hyz. destruct (cmp x z) eqn:Hxz; [|done].
  destruct (cmp y x) eqn:Hyx.
  { pose proof (swo_trans cmp swo y x z Hyx Hxz). congruence. }
  destruct (cmp z y) eqn:Hzy.
  { pose proof (swo_trans cmp swo x z y Hxz Hzy). congruence. }
  destruct (swo_equiv_trans cmp swo x y z Hxy Hyx Hyz Hzy). congruence.
Qed.

End OrderFacts.

(** ** percolateDown *)

Section PercolateFacts.

Context {T : Type}.
Variable cmp : T -> T -> bool.
Implicit Types (c : list T) (i j p b : Z) (x y : T).

Lemma bigger_child_gt c i : 1 <= i -> 2 * i <= bigger_child cmp c i <= 2 * i + 1.
Proof. intros Hi. destruct (bigger_child_cases cmp c i); lia. Qed.

(** The two ways in which a call can return. *)
Lemma percolateDown_fuel_inv fuel c i c' ch :
  1 <= i <= HALF_MAX ->
  percolateDown_fuel fuel cmp c i = Returns (c', ch) ->
  (ch = false /\ c' = c /\
   forall x y, node c i = Some x -> node c (bigger_child cmp c i) = Some y ->
               cmp x y = false)
  \/
  (exists fuel' x y ch',
     fuel = S fuel' /\ ch = true /\
     node c i = Some x /\ node c (bigger_child cmp c i) = Some y /\
     cmp x y = true /\
     percolateDown_fuel fuel' cmp
       (exchanged c i (bigger_child cmp c i) x y) (bigger_child cmp c i)
     = Returns (c', ch')).
Proof.
  intros Hi. destruct fuel as [|fuel']; simpl;
    rewrite percolate_step_nowrap by done; cbv zeta;
    destruct (node c i) as [x|] eqn:Hx;
    try destruct (node c (bigger_child cmp c i)) as [y|] eqn:Hy;
    try destruct (cmp x y) eqn:Hxy; simpl;
    try (intros [= <- <-]; left; repeat split; congruence);
    try discriminate.
  destruct (percolateDown_fuel fuel' cmp _ _) as [[c2 ch2]| | |] eqn:Hrec;
    simpl; try discriminate.
  intros [= <- <-]. right. exists fuel', x, y, ch2. by repeat split.
Qed.

(** What a returning call leaves unchanged. *)
Lemma percolateDown_fuel_frame fuel : forall c i c' ch,
  1 <= i <= HALF_MAX -> size c <= HALF_MAX ->
  percolateDown_fuel fuel cmp c i = Returns (c', ch) ->
  length c' = length c /\
  c' ≡ₚ c /\
  (ch = false -> c' = c) /\
  (forall p, 1 <= p -> p <> i -> p < 2 * i -> node c' p = node c p) /\
  (node c' i = node c i \/ node c' i = node c (2 * i)
   \/ node c' i = node c (2 * i + 1)).
Proof.
  induction fuel as [|fuel IH]; intros c i c' ch Hi Hsz Hrun;
    apply percolateDown_fuel_inv in Hrun as
      [(-> & -> & _)|(f & x & y & ch' & Hf & -> & Hx & Hy & Hxy & Hrec)];
    try done; try (by repeat split; auto).
  injection Hf as <-.
  pose proof (bigger_child_gt c i ltac:(lia)) as Hb.
  set (b := bigger_child cmp c i) in *.
  pose proof (node_Some_le _ _ _ Hy) as Hble.
  apply IH in Hrec as (Hlen & Hperm & _ & Hframe & _);
    [|lia|by rewrite size_exchanged].
  rewrite length_exchanged in Hlen.
  assert (Hi' : node c' i = Some y).
  { rewrite Hframe by lia.
    rewrite (node_exchanged c i b x y i) by (done || lia).
    rewrite decide_False by lia. by rewrite decide_True. }
  repeat split.
  - done.
  - by rewrite Hperm, exchanged_Permutation.
  - done.
  - intros p Hp Hpi Hp2. rewrite Hframe by lia.
    rewrite (node_exchanged c i b x y p) by (done || lia).
    rewrite !decide_False by lia. done.
  - rewrite Hi', <- Hy. subst b.
    destruct (bigger_child_cases cmp c i) as [->| ->]; auto.
Qed.

(** Enough fuel: the index grows at every recursive call and stays within
    the storage. *)
Lemma percolateDown_fuel_returns fuel : forall c i,
  1 <= i <= HALF_MAX -> size c <= HALF_MAX ->
  size c - i <= Z.of_nat fuel ->
  exists r, percolateDown_fuel fuel cmp c i = Returns r.
Proof.
  induction fuel as [|fuel IH]; intros c i Hi Hsz Hfuel; simpl;
    rewrite percolate_step_nowrap by done; cbv zeta;
    pose proof (bigger_child_gt c i ltac:(lia)) as Hb;
    destruct (node c i) as [x|] eqn:Hx; simpl; eauto;
    destruct (node c (bigger_child cmp c i)) as [y|] eqn:Hy; simpl; eauto;
    destruct (cmp x y) eqn:Hxy; simpl; eauto;
    pose proof (node_Some_le _ _ _ Hy) as Hble.
  - lia.
  - destruct (IH (exchanged c i (bigger_child cmp c i) x y) (bigger_child cmp c i))
      as [r ->]; [lia|by rewrite size_exchanged|rewrite size_exchanged; lia|].
    simpl. eauto.
Qed.

Lemma percolateDown_returns c i :
  1 <= i <= HALF_MAX -> size c <= HALF_MAX ->
  exists r, percolateDown cmp c i = Returns r.
Proof.
  intros Hi Hsz. apply percolateDown_fuel_returns; try done.
  unfold size. lia.
Qed.

(** A call never throws, whatever its arguments. *)
Lemma percolate_step_not_Throws c i e : percolate_step cmp c i <> Throws e.
Proof.
  unfold percolate_step.
  repeat match goal with
  | |- context [if ?b then _ else _] => destruct b; simpl
  | |- context [at_ ?c ?k] =>
      let E := fresh in
      destruct (at_ c k) eqn:E; simpl; try done; try (by apply at_not_Throws in E)
  | |- context [swap_at ?c ?i ?j] =>
      let E := fresh in
      destruct (swap_at c i j) eqn:E; simpl; try done;
      try (by apply swap_at_not_Throws in E)
  end; done.
Qed.

Lemma percolateDown_fuel_not_Throws fuel : forall c i e,
  percolateDown_fuel fuel cmp c i <> Throws e.
Proof.
  induction fuel as [|fuel IH]; intros c i e; simpl;
    destruct (percolate_step cmp c i) as [[[c1 b]|]| | |] eqn:E; simpl;
    try done; try (by apply percolate_step_not_Throws in E).
  destruct (percolateDown_fuel fuel cmp c1 b) eqn:E'; simpl; try done.
  by apply IH in E'.
Qed.

End PercolateFacts.

(** ** percolateDown restores the heap order *)

Section HeapFacts.

Context {T : Type}.
Variable cmp : T -> T -> bool.
Hypothesis swo : strict_weak_order cmp.
Implicit Types (c : list T) (i j p b : Z) (x y : T).

(** The selected child does not rank below its sibling. *)
Lemma bigger_child_max c i s y z :
  s = 2 * i \/ s = 2 * i + 1 ->
  node c (bigger_child cmp c i) = Some y -> node c s = Some z ->
  cmp y z = false.
Proof.
  unfold bigger_child. intros Hs.
  destruct (node c (2 * i)) as [l|] eqn:Hl;
    [destruct (node c (2 * i + 1)) as [r|] eqn:Hr; [destruct (cmp l r) eqn:Hlr|]|].
  - rewrite Hr. intros [= <-]. destruct Hs as [-> | ->].
    + rewrite Hl. intros [= <-]. by apply swo_asym.
    + rewrite Hr. intros [= <-]. by apply swo_irrefl.
  - rewrite Hl. intros [= <-]. destruct Hs as [-> | ->].
    + rewrite Hl. intros [= <-]. by apply swo_irrefl.
    + rewrite Hr. by intros [= <-].
  - rewrite Hl. intros [= <-]. destruct Hs as [-> | ->].
    + rewrite Hl. intros [= <-]. by apply swo_irrefl.
    + by rewrite Hr.
  - by rewrite Hl.
Qed.

(** A child exists only if the selected child does. *)
Lemma bigger_child_exists c i s z :
  1 <= i -> s = 2 * i \/ s = 2 * i + 1 -> node c s = Some z ->
  exists y, node c (bigger_child cmp c i) = Some y.
Proof.
  intros Hi Hs Hz. apply node_Some_le in Hz.
  destruct (node_is_Some c (2 * i)) as [l Hl]; [lia|].
  unfold bigger_child. rewrite Hl.
  destruct (node c (2 * i + 1)) as [r|] eqn:Hr; [|eauto].
  destruct (cmp l r); eauto.
Qed.

Lemma heap_at_of_bigger c i :
  1 <= i ->
  (forall x y, node c i = Some x -> node c (bigger_child cmp c i) = Some y ->
               cmp x y = false) ->
  heap_at cmp c i.
Proof.
  intros Hi Hroot s x z Hs Hx Hz.
  destruct (bigger_child_exists c i s z) as [y Hy]; try done.
  apply (swo_neg_trans cmp swo x y z).
  - by apply Hroot.
  - by apply (bigger_child_max c i s).
Qed.

(** Nodes whose own position and children are untouched keep their order. *)
Lemma heap_at_exchanged c i b x y j :
  1 <= i -> 1 <= b -> 1 <= j ->
  node c i = Some x -> node c b = Some y ->
  j <> i -> j <> b -> j <> i / 2 -> j <> b / 2 ->
  heap_at cmp c j -> heap_at cmp (exchanged c i b x y) j.
Proof.
  intros Hi Hb Hj Hx Hy Hji Hjb Hji2 Hjb2 Hheap s u v Hs.
  rewrite (node_exchanged c i b x y j), (node_exchanged c i b x y s)
    by (done || lia).
  rewrite !decide_False by lia.
  intros Hu Hv. by apply (Hheap s u v).
Qed.

Lemma percolateDown_fuel_heap fuel : forall c i (E : Z -> Prop) c' ch,
  1 <= i <= HALF_MAX -> size c <= HALF_MAX ->
  (forall j, E j -> j <= i) ->
  (forall j, 1 <= j -> ~ E j -> j <> i -> heap_at cmp c j) ->
  percolateDown_fuel fuel cmp c i = Returns (c', ch) ->
  forall j, 1 <= j -> ~ E j -> j <> i / 2 -> heap_at cmp c' j.
Proof.
  induction fuel as [|fuel IH]; intros c i E c' ch Hi Hsz HE Hpre Hrun;
    apply percolateDown_fuel_inv in Hrun as
      [(-> & -> & Hok)|(f & x & y & ch' & Hf & -> & Hx & Hy & Hxy & Hrec)];
    try done.
  1, 2: intros j Hj HEj Hj2; destruct (decide (j = i)) as [->|];
    [apply heap_at_of_bigger; [lia|done] | by apply Hpre].
  injection Hf as <-.
  pose proof (bigger_child_gt cmp c i ltac:(lia)) as Hb.
  pose proof (node_Some_le _ _ _ Hy) as Hble.
  pose proof (bigger_child_max c i) as Hmax.
  set (b := bigger_child cmp c i) in *.
  assert (Hb2 : b / 2 = i) by lia.
  destruct (percolateDown_fuel_frame cmp fuel (exchanged c i b x y) b c' ch')
    as (_ & _ & _ & Hframe & Htop); [lia|by rewrite size_exchanged|done|].
  intros j Hj HEj Hj2. destruct (decide (j = i)) as [->|Hji].
  - (* the node that received the child *)
    assert (Hheapb : heap_at cmp c b) by (apply Hpre; [lia| |lia]; intros ?%HE; lia).
    intros s u v Hs.
    rewrite Hframe by lia.
    rewrite (node_exchanged c i b x y i) by (done || lia).
    rewrite decide_False, decide_True by lia. intros [= <-].
    destruct (decide (s = b)) as [->|Hsb].
    + rewrite !(node_exchanged c i b x y) in Htop by (done || lia).
      rewrite decide_True in Htop by done.
      rewrite !decide_False in Htop by lia.
      destruct Htop as [-> | [-> | ->]].
      * intros [= <-]. by apply swo_asym.
      * intros Hv. apply (Hheapb (2 * b) y v); auto.
      * intros Hv. apply (Hheapb (2 * b + 1) y v); auto.
    + rewrite Hframe by lia.
      rewrite (node_exchanged c i b x y s) by (done || lia).
      rewrite !decide_False by lia.
      intros Hv. by apply (Hmax s y v).
  - (* every other node *)
    apply (IH (exchanged c i b x y) b
             (fun j => E j \/ j = i \/ j = i / 2) c' ch'); try done.
    + lia.
    + by rewrite size_exchanged.
    + intros k [Hk%HE | [-> | ->]]; lia.
    + intros k Hk HEk Hkb.
      apply heap_at_exchanged; try done; try lia.
      apply Hpre; [done| |]; intros ?; apply HEk; auto.
    + intros [?|[?|?]]; done.
    + lia.
Qed.

End HeapFacts.

(** ** The heap invariant *)

Section InvariantFacts.

Context {T : Type}.
Variable cmp : T -> T -> bool.
Implicit Types (c : list T) (i j p : Z) (x y : T).

Lemma heap_at_leaf c j : 1 <= j -> size c < 2 * j -> heap_at cmp c j.
Proof.
  intros Hj Hsz s x y Hs _ Hy. apply node_Some_le in Hy. lia.
Qed.

Lemma is_heap_nil : is_heap cmp ([] : list T).
Proof. intros j Hj. apply heap_at_leaf; [done|]. unfold size. simpl. lia. Qed.

Lemma is_heapb_sound c : is_heapb cmp c = true -> is_heap cmp c.
Proof.
  unfold is_heapb. rewrite forallb_forall.
  intros H i Hi s x y Hs Hx Hy.
  pose proof (node_Some_le _ _ _ Hx) as Hle. unfold size in Hle.
  specialize (H (Z.to_nat i)). rewrite in_seq in H.
  specialize (H ltac:(lia)). unfold heap_atb, node in *.
  replace (Z.to_nat i - 1)%nat with (Z.to_nat (i - 1)) in H by lia.
  rewrite Hx in H. apply andb_true_iff in H as [H1 H2].
  unfold child_ok in *.
  destruct Hs as [-> | ->].
  - replace (2 * Z.to_nat i - 1)%nat with (Z.to_nat (2 * i - 1)) in H1 by lia.
    rewrite Hy in H1. by apply negb_true_iff in H1.
  - replace (2 * Z.to_nat i + 1 - 1)%nat with (Z.to_nat (2 * i + 1 - 1)) in H2 by lia.
    rewrite Hy in H2. by apply negb_true_iff in H2.
Qed.

Hypothesis swo : strict_weak_order cmp.

(** The root of a heap does not rank below any stored element. *)
Lemma root_not_below (n : nat) : forall c x p y,
  is_heap cmp c -> node c 1 = Some x ->
  1 <= p <= Z.of_nat n -> node c p = Some y -> cmp x y = false.
Proof.
  induction n as [|n IH]; intros c x p y Hheap Hx Hp Hy; [lia|].
  destruct (decide (p = 1)) as [->|Hp1].
  - rewrite Hx in Hy. injection Hy as <-. by apply swo_irrefl.
  - pose proof (node_Some_le _ _ _ Hy) as Hle.
    destruct (node_is_Some c (p / 2)) as [z Hz]; [lia|].
    apply (swo_neg_trans cmp swo x z y).
    + apply (IH c x (p / 2) z); try done. lia.
    + apply (Hheap (p / 2) ltac:(lia) p z y); try done. lia.
Qed.

Lemma root_maximal c x y :
  is_heap cmp c -> c !! 0%nat = Some x -> y ∈ c -> cmp x y = false.
Proof.
  intros Hheap Hx [k Hk]%list_elem_of_lookup.
  apply (root_not_below (S k) c x (Z.of_nat (S k)) y); try done; [lia|].
  unfold node. by replace (Z.to_nat (Z.of_nat (S k) - 1)) with k by lia.
Qed.

End InvariantFacts.

(** ** pop *)

Section PopFacts.

Context {T : Type}.
Variable cmp : T -> T -> bool.
Implicit Types (c : list T) (i j p : Z) (x y : T).

Lemma empty_false c : empty c = false <-> c <> [].
Proof.
  unfold empty, size. rewrite Z.eqb_neq. destruct c; simpl; split; (done || lia).
Qed.

Lemma empty_true c : empty c = true <-> c = [].
Proof.
  unfold empty, size. rewrite Z.eqb_eq. destruct c; simpl; split; (done || lia).
Qed.

Lemma length_root_replaced c x y :
  length (root_replaced c x y) = (length c - 1)%nat.
Proof.
  unfold root_replaced, pop_back.
  by rewrite length_removelast, length_exchanged.
Qed.

Lemma node_root_replaced c x y p u :
  node c 1 = Some x -> node c (size c) = Some y ->
  2 <= p -> node (root_replaced c x y) p = Some u -> node c p = Some u.
Proof.
  intros Hx Hy Hp. unfold root_replaced, pop_back, node at 1.
  pose proof (node_Some_le _ _ _ Hx) as Hsz.
  rewrite lookup_removelast, length_exchanged.
  case_decide as Hlt; [|done].
  change (exchanged c 1 (size c) x y !! Z.to_nat (p - 1))
    with (node (exchanged c 1 (size c) x y) p).
  rewrite (node_exchanged c 1 (size c) x y p) by (done || lia).
  unfold size in *. by rewrite !decide_False by lia.
Qed.

Lemma root_replaced_Permutation c x y :
  node c 1 = Some x -> node c (size c) = Some y ->
  x :: root_replaced c x y ≡ₚ c.
Proof.
  intros Hx Hy. pose proof (node_Some_le _ _ _ Hx) as Hsz.
  rewrite <- (exchanged_Permutation c 1 (size c) x y Hx Hy) at 2.
  unfold root_replaced, pop_back.
  set (l := exchanged c 1 (size c) x y).
  assert (Hlast : l !! (length l - 1)%nat = Some x).
  { unfold l. rewrite length_exchanged.
    replace (length c - 1)%nat with (Z.to_nat (size c - 1))
      by (unfold size; lia).
    change (node (exchanged c 1 (size c) x y) (size c) = Some x).
    rewrite (node_exchanged c 1 (size c) x y (size c)) by (done || lia).
    by rewrite decide_True. }
  rewrite removelast_firstn_len.
  replace (pred (length l)) with (length l - 1)%nat by lia.
  assert (Hl : l = take (length l - 1) l ++ [x]).
  { rewrite <- (take_drop (length l - 1) l) at 1. f_equal.
    rewrite (drop_S l x (length l - 1)) by done.
    by rewrite drop_ge by lia. }
  generalize dependent (take (length l - 1) l). intros t ->.
  apply Permutation_cons_append.
Qed.

(** [pop] on a non-empty storage always returns. *)
Lemma pop_container_nonempty c :
  c <> [] -> size c <= HALF_MAX ->
  exists x y r,
    node c 1 = Some x /\ node c (size c) = Some y /\
    swap_at c 0 (wrap (size c - 1)) = Returns (exchanged c 1 (size c) x y) /\
    percolateDown cmp (root_replaced c x y) 1 = Returns r /\
    pop_container cmp c = Returns (fst r) /\
    length (fst r) = (length c - 1)%nat /\
    x :: fst r ≡ₚ c.
Proof.
  intros Hne Hsz.
  assert (Hpos : 1 <= size c) by (unfold size; destruct c; simpl; (done || lia)).
  destruct (node_is_Some c 1) as [x Hx]; [lia|].
  destruct (node_is_Some c (size c)) as [y Hy]; [lia|].
  assert (Hswap :
    swap_at c 0 (wrap (size c - 1)) = Returns (exchanged c 1 (size c) x y)).
  { rewrite wrap_small by (rewrite HALF_MAX_val in Hsz; rewrite SIZE_MAX_val; lia).
    change 0 with (1 - 1) at 1. by apply swap_at_exchanged. }
  assert (Hsz2 : size (root_replaced c x y) <= HALF_MAX).
  { unfold size in *. rewrite length_root_replaced. lia. }
  destruct (percolateDown_returns cmp (root_replaced c x y) 1) as [[c' ch] Hr];
    [rewrite HALF_MAX_val; lia|done|].
  destruct (percolateDown_fuel_frame cmp (length (root_replaced c x y))
              (root_replaced c x y) 1 c' ch)
    as (Hlen & Hperm & _); [rewrite HALF_MAX_val; lia|done|exact Hr|].
  exists x, y, (c', ch). repeat split; try done.
  - unfold pop_container. rewrite (proj2 (empty_false c) Hne), Hswap. simpl.
    fold (root_replaced c x y). by rewrite Hr.
  - simpl. by rewrite Hlen, length_root_replaced.
  - simpl. by rewrite Hperm, root_replaced_Permutation.
Qed.

Hypothesis swo : strict_weak_order cmp.

Lemma pop_container_heap c c' :
  is_heap cmp c -> size c <= HALF_MAX ->
  pop_container cmp c = Returns c' -> is_heap cmp c'.
Proof.
  intros Hheap Hsz Hpop. destruct (decide (c = [])) as [->|Hne].
  - by injection Hpop as <-.
  - destruct (pop_container_nonempty c Hne Hsz)
      as (x & y & [c2 ch] & Hx & Hy & _ & Hr & Hpop' & Hlen & _).
    rewrite Hpop' in Hpop. injection Hpop as <-. simpl in *.
    intros j Hj.
    apply (percolateDown_fuel_heap cmp swo (length (root_replaced c x y))
             (root_replaced c x y) 1 (fun _ => False) c2 ch); try done.
    + unfold size in *. rewrite length_root_replaced. lia.
    + intros k Hk _ Hk1 s u v Hs Hu Hv.
      apply (node_root_replaced c x y) in Hu; [|done|done|lia].
      apply (node_root_replaced c x y) in Hv; [|done|done|lia].
      by apply (Hheap k Hk s u v).
    + auto.
    + lia.
Qed.

End PopFacts.

(** ** push *)

Section PushFacts.

Context {T : Type}.
Variable cmp : T -> T -> bool.
Implicit Types (c : list T) (i j p : Z) (x y t : T).

(** The ancestor walk always ends: the index is halved each round. *)
Lemma push_loop_returns fuel : forall c index,
  0 <= index <= HALF_MAX -> size c <= HALF_MAX ->
  index < 2 ^ Z.of_nat fuel ->
  exists c', push_loop fuel cmp c index = Returns c' /\
             c' ≡ₚ c /\ length c' = length c.
Proof.
  induction fuel as [|fuel IH]; intros c index Hi Hsz Hfuel.
  { assert (index = 0) as -> by (change (2 ^ Z.of_nat 0) with 1 in Hfuel; lia).
    simpl. eauto. }
  unfold push_loop; fold (push_loop (T:=T)).
  destruct (Z.eqb_spec index 0) as [->|Hne]; [eauto|].
  destruct (percolateDown_returns cmp c index) as [[c1 ch] Hr]; [lia|done|].
  destruct (percolateDown_fuel_frame cmp (length c) c index c1 ch)
    as (Hlen & Hperm & _); [lia|done|done|].
  rewrite Hr. simpl. destruct ch; [|eauto].
  rewrite Nat2Z.inj_succ, Z.pow_succ_r in Hfuel by lia.
  destruct (IH c1 (index / 2)) as (c' & -> & Hperm' & Hlen');
    [lia|unfold size in *; lia|lia|].
  exists c'. repeat split; [by rewrite Hperm'|lia].
Qed.

Lemma push_container_returns c t :
  size c < HALF_MAX ->
  exists c', push_container cmp c t = Returns c' /\
             c' ≡ₚ t :: c /\ length c' = S (length c).
Proof.
  intros Hsz. unfold push_container, push_back.
  assert (Hsz1 : size (c ++ [t]) = size c + 1).
  { unfold size. rewrite length_app. simpl. lia. }
  pose proof (size_nonneg c).
  destruct (push_loop_returns 64 (c ++ [t]) (size (c ++ [t]) / 2))
    as (c' & Hrun & Hperm & Hlen).
  - lia.
  - lia.
  - rewrite HALF_MAX_val in Hsz. change (2 ^ Z.of_nat 64) with (2 ^ 64). lia.
  - exists c'. repeat split; [done| |].
    + by rewrite Hperm, <- Permutation_cons_append.
    + rewrite Hlen, length_app. simpl. lia.
Qed.

Lemma node_push_back_old c t p :
  1 <= p <= size c -> node (push_back c t) p = node c p.
Proof.
  intros Hp. unfold node, push_back, size in *.
  apply lookup_app_l. lia.
Qed.

Lemma node_push_back_Some c t p u :
  1 <= p -> node (push_back c t) p = Some u -> p <= size c + 1.
Proof.
  intros Hp Hu%node_Some_le. unfold size, push_back in *.
  rewrite length_app in Hu. simpl in Hu. lia.
Qed.

Hypothesis swo : strict_weak_order cmp.

Lemma push_loop_heap fuel : forall c index c',
  0 <= index <= HALF_MAX -> size c <= HALF_MAX ->
  (forall j, 1 <= j -> j <> index -> heap_at cmp c j) ->
  push_loop fuel cmp c index = Returns c' -> is_heap cmp c'.
Proof.
  induction fuel as [|fuel IH]; intros c index c' Hi Hsz Hpre;
    unfold push_loop; fold (push_loop (T:=T));
    (destruct (Z.eqb_spec index 0) as [->|Hne];
     [intros [= <-] j Hj; apply Hpre; lia|]);
    destruct (percolateDown cmp c index) as [[c1 ch]| | |] eqn:Hr;
      simpl; try done;
    destruct (percolateDown_fuel_frame cmp (length c) c index c1 ch)
      as (Hlen & _ & Hsame & _); try done; try lia;
    pose proof (percolateDown_fuel_heap cmp swo (length c) c index
                  (fun _ => False) c1 ch ltac:(lia) Hsz
                  ltac:(done) ltac:(auto) Hr) as Hpost;
    destruct ch; try done.
  - intros [= <-]. rewrite (Hsame eq_refl) in *.
    intros j Hj. destruct (decide (j = index)) as [->|]; [|by apply Hpre].
    apply Hpost; [done|auto|lia].
  - apply IH; [lia|unfold size in *; lia|].
    intros j Hj Hne'. apply Hpost; auto.
  - intros [= <-]. rewrite (Hsame eq_refl) in *.
    intros j Hj. destruct (decide (j = index)) as [->|]; [|by apply Hpre].
    apply Hpost; [done|auto|lia].
Qed.

Lemma push_container_heap c t c' :
  is_heap cmp c -> size c < HALF_MAX ->
  push_container cmp c t = Returns c' -> is_heap cmp c'.
Proof.
  intros Hheap Hsz. unfold push_container.
  assert (Hsz1 : size (push_back c t) = size c + 1).
  { unfold size, push_back. rewrite length_app. simpl. lia. }
  pose proof (size_nonneg c).
  apply push_loop_heap; [lia|lia|].
  intros j Hj Hne s u v Hs Hu Hv.
  pose proof (node_push_back_Some c t s v ltac:(lia) Hv).
  rewrite node_push_back_old in Hu by lia.
  rewrite node_push_back_old in Hv by lia.
  by apply (Hheap j Hj s u v).
Qed.

End PushFacts.

(** ** heapify *)

Section HeapifyFacts.

Context {T : Type}.
Variable cmp : T -> T -> bool.
Implicit Types (c : list T) (i j p : Z) (x y t : T).

Lemma heapify_loop_returns (k : nat) : forall c,
  Z.of_nat k <= HALF_MAX -> size c <= HALF_MAX ->
  exists c', heapify_loop cmp k c = Returns c' /\
             c' ≡ₚ c /\ length c' = length c.
Proof.
  induction k as [|k IH]; intros c Hk Hsz; [by exists c|].
  unfold heapify_loop; fold (heapify_loop (T:=T)).
  destruct (percolateDown_returns cmp c (Z.of_nat (S k))) as [[c1 ch] Hr];
    [lia|done|].
  destruct (percolateDown_fuel_frame cmp (length c) c (Z.of_nat (S k)) c1 ch)
    as (Hlen & Hperm & _); [lia|done|done|].
  rewrite Hr. simpl.
  destruct (IH c1) as (c' & -> & Hperm' & Hlen'); [lia|unfold size in *; lia|].
  exists c'. repeat split; [by rewrite Hperm'|lia].
Qed.

Lemma heapify_container_returns c :
  size c <= HALF_MAX ->
  exists c', heapify_container cmp c = Returns c' /\
             c' ≡ₚ c /\ length c' = length c.
Proof.
  intros Hsz. apply heapify_loop_returns; [|done].
  pose proof (size_nonneg c). lia.
Qed.

Hypothesis swo : strict_weak_order cmp.

Lemma heapify_loop_heap (k : nat) : forall c c',
  Z.of_nat k <= HALF_MAX -> size c <= HALF_MAX ->
  (forall j, Z.of_nat k < j -> heap_at cmp c j) ->
  heapify_loop cmp k c = Returns c' -> is_heap cmp c'.
Proof.
  induction k as [|k IH]; intros c c' Hk Hsz Hpre.
  - intros [= <-] j Hj. apply Hpre. lia.
  - unfold heapify_loop; fold (heapify_loop (T:=T)).
    destruct (percolateDown cmp c (Z.of_nat (S k))) as [[c1 ch]| | |] eqn:Hr;
      simpl; try done.
    destruct (percolateDown_fuel_frame cmp (length c) c (Z.of_nat (S k)) c1 ch)
      as (Hlen & _); [lia|done|done|].
    apply IH; [lia|unfold size in *; lia|].
    intros j Hj.
    apply (percolateDown_fuel_heap cmp swo (length c) c (Z.of_nat (S k))
             (fun j => j < Z.of_nat (S k)) c1 ch); try done; try lia.
    intros i Hi Hge Hne. apply Hpre. lia.
Qed.

Lemma heapify_container_heap c c' :
  size c <= HALF_MAX ->
  heapify_container cmp c = Returns c' -> is_heap cmp c'.
Proof.
  intros Hsz. pose proof (size_nonneg c).
  apply heapify_loop_heap; [lia|done|].
  intros j Hj. apply heap_at_leaf; lia.
Qed.

End HeapifyFacts.

(** ** Outcomes that cannot occur *)

Section OutcomeFacts.

Context {T : Type}.
Variable cmp : T -> T -> bool.
Implicit Types (c : list T) (i j p b : Z) (x y t : T).

Lemma percolate_step_not_NoFuel c i : percolate_step cmp c i <> NoFuel.
Proof.
  unfold percolate_step.
  repeat match goal with
  | |- context [if ?b then _ else _] => destruct b; simpl
  | |- context [at_ ?c ?k] =>
      let E := fresh in
      destruct (at_ c k) eqn:E; simpl; try done; try (by apply at_not_NoFuel in E)
  | |- context [swap_at ?c ?i ?j] =>
      let E := fresh in
      destruct (swap_at c i j) eqn:E; simpl; try done;
      try (by apply swap_at_not_NoFuel in E)
  end; done.
Qed.

(** A swap happens only after the parent was read inside the storage. *)
Lemma percolate_step_Some_index c i c' b :
  1 <= i <= SIZE_MAX -> size c <= HALF_MAX ->
  percolate_step cmp c i = Returns (Some (c', b)) -> i <= HALF_MAX.
Proof.
  intros Hi Hsz Hstep. destruct (Z.le_gt_cases i HALF_MAX) as [|Hbig]; [done|].
  exfalso. revert Hstep. unfold percolate_step.
  destruct (if wrap (wrap (i * 2) + 1) <=? size c then _ else _)
    as [rightWins| | |]; simpl; try done.
  rewrite (wrap_small (i - 1)) by lia.
  rewrite (at_outside c (i - 1)) by lia.
  by destruct (_ <=? size c).
Qed.

Lemma percolate_step_bounds c i c' b :
  1 <= i <= SIZE_MAX -> size c <= HALF_MAX ->
  percolate_step cmp c i = Returns (Some (c', b)) ->
  2 * i <= b <= size c /\ size c' = size c.
Proof.
  intros Hi Hsz Hstep.
  pose proof (percolate_step_Some_index c i c' b Hi Hsz Hstep) as Hi'.
  rewrite percolate_step_nowrap in Hstep by lia. cbv zeta in Hstep.
  pose proof (bigger_child_gt cmp c i ltac:(lia)) as Hb.
  destruct (node c i) as [x|] eqn:Hx; [|done].
  destruct (node c (bigger_child cmp c i)) as [y|] eqn:Hy; [|done].
  destruct (cmp x y); [|done].
  injection Hstep as <- <-.
  apply node_Some_le in Hy. rewrite size_exchanged. lia.
Qed.

Lemma percolateDown_fuel_not_NoFuel fuel c i :
  1 <= i <= SIZE_MAX -> size c <= HALF_MAX ->
  size c - i <= Z.of_nat fuel ->
  percolateDown_fuel fuel cmp c i <> NoFuel.
Proof.
  intros Hi Hsz Hfuel.
  destruct (Z.le_gt_cases i HALF_MAX) as [Hsmall|Hbig].
  - destruct (percolateDown_fuel_returns cmp fuel c i) as [r ->]; (done || lia).
  - destruct fuel; simpl;
      destruct (percolate_step cmp c i) as [[[c' b]|]| | |] eqn:Hstep;
      simpl; try done;
      try (by apply percolate_step_not_NoFuel in Hstep);
      apply percolate_step_Some_index in Hstep; (done || lia).
Qed.

Lemma push_loop_not_Throws fuel : forall c index e,
  push_loop fuel cmp c index <> Throws e.
Proof.
  induction fuel as [|fuel IH]; intros c index e;
    unfold push_loop; fold (push_loop (T:=T));
    destruct (index =? 0); try done;
    destruct (percolateDown cmp c index) as [[c1 ch]| | |] eqn:Hr; simpl;
    try done; try (by apply percolateDown_fuel_not_Throws in Hr);
    destruct ch; try done; try apply IH.
Qed.

Lemma push_container_not_Throws c t e : push_container cmp c t <> Throws e.
Proof. apply push_loop_not_Throws. Qed.

Lemma pop_container_not_Throws c e : pop_container cmp c <> Throws e.
Proof.
  unfold pop_container. destruct (empty c); [done|].
  destruct (swap_at c 0 _) as [c1| | |] eqn:Hs; simpl; try done;
    [|by apply swap_at_not_Throws in Hs].
  destruct (percolateDown cmp (pop_back c1) 1) eqn:Hr; simpl; try done.
  by apply percolateDown_fuel_not_Throws in Hr.
Qed.

Lemma heapify_loop_not_Throws (k : nat) : forall c e,
  heapify_loop cmp k c <> Throws e.
Proof.
  induction k as [|k IH]; intros c e; [done|].
  unfold heapify_loop; fold (heapify_loop (T:=T)).
  destruct (percolateDown cmp c (Z.of_nat (S k))) as [[c1 ch]| | |] eqn:Hr;
    simpl; try done; try apply IH.
  by apply percolateDown_fuel_not_Throws in Hr.
Qed.

Lemma heapify_container_not_Throws c e : heapify_container cmp c <> Throws e.
Proof. apply heapify_loop_not_Throws. Qed.

End OutcomeFacts.

(** ** Sorted sequences *)

Section SortedFacts.

Context {T : Type}.
Variable cmp : T -> T -> bool.

(** Under a total ordering a multiset has one sorted arrangement. *)
Lemma sorted_desc_unique (l1 : list T) : forall l2,
  total_order cmp ->
  sorted_desc cmp l1 -> sorted_desc cmp l2 -> l1 ≡ₚ l2 -> l1 = l2.
Proof.
  induction l1 as [|a l1 IH]; intros l2 Htot H1 H2 Hperm.
  - by apply Permutation_nil_l in Hperm.
  - destruct l2 as [|b l2]; [by apply Permutation_nil_r in Hperm|].
    apply StronglySorted_inv in H1 as [H1 Ha].
    apply StronglySorted_inv in H2 as [H2 Hb].
    rewrite List.Forall_forall in Ha, Hb.
    assert (Hab : a = b).
    { assert (Hbin : b ∈ a :: l1) by (rewrite Hperm; left).
      assert (Hain : a ∈ b :: l2) by (rewrite <- Hperm; left).
      apply elem_of_cons in Hbin as [->|Hbin]; [done|].
      apply elem_of_cons in Hain as [->|Hain]; [done|].
      apply Htot.
      - apply Ha. by apply list_elem_of_In.
      - apply Hb. by apply list_elem_of_In. }
    subst b. f_equal. apply IH; try done.
    by apply Permutation_cons_inv in Hperm.
Qed.

Hypothesis swo : strict_weak_order cmp.

Lemma equivalent_sym x y : equivalent cmp x y -> equivalent cmp y x.
Proof. by intros [? ?]. Qed.

Lemma equivalent_trans x y z :
  equivalent cmp x y -> equivalent cmp y z -> equivalent cmp x z.
Proof. intros [? ?] [? ?]. by apply (swo_equiv_trans cmp swo x y z). Qed.

(** Two sorted arrangements of one multiset, the second one taken up to
    equivalence, agree position by position up to equivalence. *)
Lemma sorted_desc_equivalent (l1 : list T) : forall l2 l,
  sorted_desc cmp l1 -> sorted_desc cmp l2 ->
  l1 ≡ₚ l -> Forall2 (equivalent cmp) l l2 ->
  Forall2 (equivalent cmp) l1 l2.
Proof.
  induction l1 as [|a l1 IH]; intros l2 l H1 H2 Hperm Hl.
  { apply Permutation_nil_l in Hperm as <-.
    apply Forall2_nil_inv_l in Hl as ->. constructor. }
  destruct l as [|e0 lt]; [by apply Permutation_nil_r in Hperm|].
  apply Forall2_cons_inv_l in Hl as (b & l2' & He0 & Hlt & ->).
  apply StronglySorted_inv in H1 as [H1 Ha].
  apply StronglySorted_inv in H2 as [H2 Hb].
  rewrite List.Forall_forall in Ha, Hb.
  assert (Hmax1 : forall z, z ∈ a :: l1 -> cmp a z = false).
  { intros z [->|Hz]%elem_of_cons; [by apply swo_irrefl|].
    apply Ha. by apply list_elem_of_In. }
  assert (Hmax2 : forall z, z ∈ b :: l2' -> cmp b z = false).
  { intros z [->|Hz]%elem_of_cons; [by apply swo_irrefl|].
    apply Hb. by apply list_elem_of_In. }
  assert (Hab : equivalent cmp a b).
  { split.
    - apply (swo_neg_trans cmp swo a e0 b); [|apply He0].
      apply Hmax1. rewrite Hperm. left.
    - assert (Ha_in : a ∈ e0 :: lt) by (rewrite <- Hperm; left).
      apply list_elem_of_lookup in Ha_in as [i Hi].
      assert (Hfull : Forall2 (equivalent cmp) (e0 :: lt) (b :: l2'))
        by (by constructor).
      destruct (Forall2_lookup_l _ _ _ i a Hfull Hi) as (a' & Ha' & Haa').
      apply (swo_neg_trans cmp swo b a' a); [|apply Haa'].
      apply Hmax2. apply list_elem_of_lookup. eauto. }
  constructor; [done|].
  assert (Ha_in : a ∈ e0 :: lt) by (rewrite <- Hperm; left).
  apply elem_of_cons in Ha_in as [<-|Hin].
  - apply (IH l2' lt); try done. by apply Permutation_cons_inv in Hperm.
  - apply list_elem_of_split in Hin as (p & s & ->).
    apply Forall2_app_inv_l in Hlt as (m & n' & Hp & Hs & ->).
    apply Forall2_cons_inv_l in Hs as (a' & n & Haa' & Hs & ->).
    apply (IH (m ++ a' :: n) (p ++ e0 :: s)); try done.
    + apply (Permutation_cons_inv (a := a)).
      rewrite Hperm.
      rewrite <- !Permutation_middle. apply Permutation_swap.
    + apply Forall2_app; [done|]. constructor; [|done].
      apply (equivalent_trans e0 b a'); [done|].
      apply (equivalent_trans b a a'); [by apply equivalent_sym|done].
Qed.

End SortedFacts.

(** ** The queue object *)

Section QueueFacts.

Context {T Compare : Type}.
Variable Compare_default : Compare.
Variable call : Compare -> T -> T -> bool.
Implicit Types (q : priority_queue T Compare) (t x y : T) (c : list T).

Lemma with_container_same q : with_container q (container q) = q.
Proof. by destruct q. Qed.

Lemma push_returns q t :
  size (container q) < HALF_MAX ->
  exists q', push call q t = Returns q' /\ compare q' = compare q /\
             container q' ≡ₚ t :: container q /\
             length (container q') = S (length (container q)).
Proof.
  intros Hsz. unfold push.
  destruct (push_container_returns (call (compare q)) (container q) t Hsz)
    as (c' & -> & Hperm & Hlen).
  by exists (with_container q c').
Qed.

Lemma push_heap q t q' :
  strict_weak_order (call (compare q)) -> heap_ordered call q ->
  size (container q) < HALF_MAX ->
  push call q t = Returns q' -> heap_ordered call q'.
Proof.
  intros Hswo Hheap Hsz. unfold push.
  destruct (push_container _ _ _) as [c'| | |] eqn:Hc; simpl; try done.
  intros [= <-]. unfold heap_ordered. simpl.
  by apply (push_container_heap _ Hswo (container q) t).
Qed.

Lemma pop_returns q :
  size (container q) <= HALF_MAX ->
  exists q', pop call q = Returns q' /\ compare q' = compare q /\
             length (container q') = (length (container q) - 1)%nat.
Proof.
  intros Hsz. unfold pop. destruct (decide (container q = [])) as [Hnil|Hne].
  - unfold pop_container. rewrite (proj2 (empty_true _) Hnil). simpl.
    exists (with_container q (container q)). by rewrite Hnil.
  - destruct (pop_container_nonempty (call (compare q)) (container q) Hne Hsz)
      as (x & y & r & _ & _ & _ & _ & -> & Hlen & _).
    by exists (with_container q (fst r)).
Qed.

Lemma pop_heap q q' :
  strict_weak_order (call (compare q)) -> heap_ordered call q ->
  size (container q) <= HALF_MAX ->
  pop call q = Returns q' -> heap_ordered call q'.
Proof.
  intros Hswo Hheap Hsz. unfold pop.
  destruct (pop_container _ _) as [c'| | |] eqn:Hc; simpl; try done.
  intros [= <-]. unfold heap_ordered. simpl.
  by apply (pop_container_heap _ Hswo (container q)).
Qed.

Lemma run_heap (ops : list (op T)) : forall q,
  strict_weak_order (call (compare q)) -> heap_ordered call q ->
  size (container q) + Z.of_nat (length ops) <= HALF_MAX ->
  exists q', run call q ops = Returns q' /\ compare q' = compare q /\
             heap_ordered call q'.
Proof.
  induction ops as [|o ops IH]; intros q Hswo Hheap Hsz; [by exists q|].
  simpl in Hsz. simpl.
  assert (exists q1, apply_op call q o = Returns q1 /\ compare q1 = compare q /\
                     heap_ordered call q1 /\
                     size (container q1) <= size (container q) + 1)
    as (q1 & -> & Hcmp & Hheap1 & Hsz1).
  { destruct o as [t|]; simpl.
    - destruct (push_returns q t) as (q1 & Hq1 & Hcmp & _ & Hlen); [lia|].
      exists q1. repeat split; try done.
      + by apply (push_heap q t); [| |lia|].
      + unfold size. lia.
    - destruct (pop_returns q) as (q1 & Hq1 & Hcmp & Hlen); [lia|].
      exists q1. repeat split; try done.
      + by apply (pop_heap q); [| |lia|].
      + unfold size. lia. }
  simpl. destruct (IH q1) as (q' & Hrun & Hcmp' & Hheap');
    [by rewrite Hcmp|done|lia|].
  exists q'. repeat split; [done|congruence|done].
Qed.

Lemma push_range_heap (range : list T) : forall q,
  strict_weak_order (call (compare q)) -> heap_ordered call q ->
  size (container q) + Z.of_nat (length range) <= HALF_MAX ->
  exists q', push_range call q range = Returns q' /\ compare q' = compare q /\
             heap_ordered call q' /\ container q' ≡ₚ container q ++ range.
Proof.
  induction range as [|t range IH]; intros q Hswo Hheap Hsz.
  - exists q. by rewrite app_nil_r.
  - simpl in Hsz. simpl.
    destruct (push_returns q t) as (q1 & Hq1 & Hcmp & Hperm & Hlen); [lia|].
    rewrite Hq1. simpl.
    destruct (IH q1) as (q' & Hrun & Hcmp' & Hheap' & Hperm').
    + by rewrite Hcmp.
    + by apply (push_heap q t); [| |lia|].
    + unfold size in *. lia.
    + exists q'. repeat split; [done|congruence|done|].
      rewrite Hperm', Hperm. by rewrite <- Permutation_middle.
Qed.

Lemma pq_of_range_heap (range : list T) (oc : option Compare) :
  strict_weak_order (call (default_arg Compare_default oc)) ->
  size range <= HALF_MAX ->
  exists q, pq_of_range Compare_default call range oc = Returns q /\
            compare q = default_arg Compare_default oc /\
            heap_ordered call q /\ container q ≡ₚ range.
Proof.
  intros Hswo Hsz. unfold pq_of_range.
  apply (push_range_heap range
           {| container := []; compare := default_arg Compare_default oc |});
    [done|apply is_heap_nil|done].
Qed.

Lemma pq_of_container_heap (k : Compare) (rhs : list T) :
  strict_weak_order (call k) -> size rhs <= HALF_MAX ->
  exists q, pq_of_container call k rhs = Returns q /\ compare q = k /\
            heap_ordered call q /\ container q ≡ₚ rhs.
Proof.
  intros Hswo Hsz. unfold pq_of_container, heapify. simpl.
  destruct (heapify_container_returns (call k) rhs Hsz) as (c' & Hc & Hperm & _).
  rewrite Hc. simpl. eexists. repeat split; try done.
  unfold heap_ordered. simpl. by apply (heapify_container_heap _ Hswo rhs).
Qed.

(** *** Observation by [top] and [pop] *)

Lemma top_nonempty q :
  pq_empty q = false ->
  exists x, container q !! 0%nat = Some x /\ top q = Returns x.
Proof.
  intros He. unfold top, front. rewrite He. simpl.
  apply empty_false in He.
  destruct (container q) as [|x rest] eqn:Hc; [done|].
  exists x. split; [done|]. by apply at_lookup.
Qed.

Lemma top_empty q : pq_empty q = true -> top q = Throws out_of_range.
Proof. intros He. unfold top. by rewrite He. Qed.

Lemma drain_sorted (n : nat) : forall q,
  strict_weak_order (call (compare q)) -> heap_ordered call q ->
  (length (container q) <= n)%nat -> size (container q) <= HALF_MAX ->
  exists out, drain call n q = Returns out /\
              out ≡ₚ container q /\ sorted_desc (call (compare q)) out.
Proof.
  induction n as [|n IH]; intros q Hswo Hheap Hlen Hsz.
  - assert (Hnil : container q = []) by (destruct (container q); simpl in *; (done || lia)).
    exists []. simpl. unfold pq_empty. rewrite (proj2 (empty_true _) Hnil), Hnil.
    repeat split; [done|constructor].
  - simpl. destruct (pq_empty q) eqn:He.
    { apply empty_true in He. exists []. rewrite He.
      repeat split; [done|constructor]. }
    destruct (top_nonempty q He) as (x & Hx & ->). simpl.
    apply empty_false in He.
    destruct (pop_container_nonempty (call (compare q)) (container q) He Hsz)
      as (x' & y & r & Hx' & _ & _ & _ & Hpop & Hlen' & Hperm).
    assert (x' = x) as ->
      by (unfold node in Hx'; change (Z.to_nat (1 - 1)) with 0%nat in Hx'; congruence).
    unfold pop. rewrite Hpop. simpl.
    destruct (IH (with_container q (fst r))) as (rest & -> & Hperm' & Hsorted).
    + done.
    + unfold heap_ordered. simpl.
      by apply (pop_container_heap _ Hswo (container q)).
    + simpl. lia.
    + simpl. unfold size in *. lia.
    + simpl in *. exists (x :: rest). repeat split.
      * by rewrite Hperm'.
      * constructor; [done|].
        apply List.Forall_forall. intros z Hz%list_elem_of_In.
        apply (root_maximal _ Hswo (container q)); try done.
        rewrite <- Hperm, <- Hperm'. by right.
Qed.

Lemma pop_sequence_sorted q :
  strict_weak_order (call (compare q)) -> heap_ordered call q ->
  size (container q) <= HALF_MAX ->
  exists out, pop_sequence call q = Returns out /\
              out ≡ₚ container q /\ sorted_desc (call (compare q)) out.
Proof. intros. by apply drain_sorted. Qed.

(** The first element of the pop sequence is what [top] returns. *)
Lemma pop_sequence_top q out :
  pop_sequence call q = Returns out ->
  top q = first_of out.
Proof.
  unfold pop_sequence.
  destruct (length (container q)) as [|n] eqn:Hlen; simpl.
  - assert (pq_empty q = true) as He.
    { apply empty_true. by destruct (container q). }
    rewrite He. intros [= <-]. by apply top_empty.
  - assert (pq_empty q = false) as He.
    { apply empty_false. by destruct (container q). }
    rewrite He. destruct (top q) as [x| | |]; simpl; try done.
    destruct (pop call q) as [q'| | |]; simpl; try done.
    destruct (drain call n q') as [rest| | |]; simpl; try done.
    by intros [= <-].
Qed.

End QueueFacts.

(** ** The comparators of the examples *)

Ltac order_by_lia :=
  unfold call_less, call_greater, call_by_key, call_ordered_by in *;
  repeat match goal with
  | o : ordered_by |- _ => destruct o as [[|]]; simpl in *
  end;
  lia.

Lemma less_strict_weak_order k : strict_weak_order (call_less k).
Proof. split; intros; order_by_lia. Qed.

Lemma greater_strict_weak_order k : strict_weak_order (call_greater k).
Proof. split; intros; order_by_lia. Qed.

Lemma by_key_strict_weak_order k : strict_weak_order (call_by_key k).
Proof. split; intros; order_by_lia. Qed.

Lemma ordered_by_strict_weak_order o : strict_weak_order (call_ordered_by o).
Proof. split; intros; order_by_lia. Qed.

Lemma less_total_order k : total_order (call_less k).
Proof. intros x y. order_by_lia. Qed.

Lemma greater_total_order k : total_order (call_greater k).
Proof. intros x y. order_by_lia. Qed.

(** Under [std::less] a sorted pop sequence is non-increasing, under
    [std::greater] it is non-decreasing. *)
Lemma sorted_desc_less k (l : list Z) :
  sorted_desc (call_less k) l <-> StronglySorted Z.ge l.
Proof.
  unfold sorted_desc. split; induction 1; constructor; try done;
    (eapply List.Forall_impl; [|eassumption]); intros b; order_by_lia.
Qed.

Lemma sorted_desc_greater k (l : list Z) :
  sorted_desc (call_greater k) l <-> StronglySorted Z.le l.
Proof.
  unfold sorted_desc. split; induction 1; constructor; try done;
    (eapply List.Forall_impl; [|eassumption]); intros b; order_by_lia.
Qed.


(** The value a call returns does not depend on the recursion budget. *)
Lemma percolateDown_fuel_mono {T : Type} (cmp : T -> T -> bool) (fuel : nat) :
  forall fuel' c i r,
    (fuel <= fuel')%nat ->
    percolateDown_fuel fuel cmp c i = Returns r ->
    percolateDown_fuel fuel' cmp c i = Returns r.
Proof.
  induction fuel as [|fuel IH]; intros [|fuel'] c i r Hle; simpl;
    destruct (percolate_step cmp c i) as [[[c1 b]|]| | |]; simpl;
    try done; try lia.
  destruct (percolateDown_fuel fuel cmp c1 b) as [r1| | |] eqn:Hrec;
    simpl; try done.
  intros [= <-]. by rewrite (IH fuel' c1 b r1 ltac:(lia) Hrec).
Qed.

(** ** Exceptions at the level of the queue *)

Section QueueOutcomes.

Context {T Compare : Type}.
Variable Compare_default : Compare.
Variable call : Compare -> T -> T -> bool.
Implicit Types (q : priority_queue T Compare) (t : T).

Lemma push_not_Throws q t e : push call q t <> Throws e.
Proof.
  unfold push.
  destruct (push_container _ _ _) eqn:H; simpl; try done.
  by apply push_container_not_Throws in H.
Qed.

Lemma pop_not_Throws q e : pop call q <> Throws e.
Proof.
  unfold pop.
  destruct (pop_container _ _) eqn:H; simpl; try done.
  by apply pop_container_not_Throws in H.
Qed.

Lemma heapify_not_Throws q e : heapify call q <> Throws e.
Proof.
  unfold heapify.
  destruct (heapify_container _ _) eqn:H; simpl; try done.
  by apply heapify_container_not_Throws in H.
Qed.

Lemma push_range_not_Throws (range : list T) : forall q e,
  push_range call q range <> Throws e.
Proof.
  induction range as [|t range IH]; intros q e; simpl; [done|].
  destruct (push call q t) eqn:H; simpl; try done; try apply IH.
  by apply push_not_Throws in H.
Qed.

End QueueOutcomes.

(** Both constructions are emptied into sorted arrangements of the input,
    which agree up to equivalence, and are equal under a total ordering. *)
Lemma constructions_agree
    {T Compare : Type} (Compare_default : Compare)
    (call : Compare -> T -> T -> bool) (oc : option Compare) (l : list T) :
  strict_weak_order (call (default_arg Compare_default oc)) ->
  size l <= HALF_MAX ->
  exists q1 q2 out1 out2,
    pq_of_range Compare_default call l oc = Returns q1 /\
    pq_of_container call (default_arg Compare_default oc) l = Returns q2 /\
    pop_sequence call q1 = Returns out1 /\
    pop_sequence call q2 = Returns out2 /\
    top q1 = first_of out1 /\
    top q2 = first_of out2 /\
    Forall2 (equivalent (call (default_arg Compare_default oc))) out1 out2 /\
    (total_order (call (default_arg Compare_default oc)) ->
     top q1 = top q2 /\ out1 = out2).
Proof.
  intros Hswo Hsz.
  destruct (pq_of_range_heap Compare_default call l oc Hswo Hsz)
    as (q1 & Hq1 & Hcmp1 & Hheap1 & Hperm1).
  destruct (pq_of_container_heap call (default_arg Compare_default oc) l Hswo Hsz)
    as (q2 & Hq2 & Hcmp2 & Hheap2 & Hperm2).
  destruct (pop_sequence_sorted call q1) as (out1 & Hout1 & Hp1 & Hs1);
    [by rewrite Hcmp1|done|unfold size in *; by rewrite Hperm1|].
  destruct (pop_sequence_sorted call q2) as (out2 & Hout2 & Hp2 & Hs2);
    [by rewrite Hcmp2|done|unfold size in *; by rewrite Hperm2|].
  rewrite Hcmp1 in Hs1. rewrite Hcmp2 in Hs2.
  assert (Hperm : out1 ≡ₚ out2) by (by rewrite Hp1, Hp2, Hperm1, Hperm2).
  pose proof (pop_sequence_top call q1 out1 Hout1) as Htop1.
  pose proof (pop_sequence_top call q2 out2 Hout2) as Htop2.
  exists q1, q2, out1, out2. repeat split; try done.
  - apply (sorted_desc_equivalent _ Hswo out1 out2 out2); try done.
    clear -Hswo. induction out2; constructor; [|done].
    split; by apply (swo_irrefl _ Hswo).
  - rewrite Htop1, Htop2.
    by rewrite (sorted_desc_unique _ out1 out2 H Hs1 Hs2 Hperm).
  - by apply (sorted_desc_unique _ out1 out2 H Hs1 Hs2 Hperm).
Qed.

(** * The claims *)

(** C1. Starting from an empty queue whose comparator is a strict weak
    ordering, every sequence of [push] and [pop] calls returns, and after each
    call (that is, after every prefix [take k ops] of the sequence) the heap
    invariant holds: no parent at a 1-based position [i] ranks below a child
    stored at [2i] or [2i+1]. *)
Theorem heap_invariant_after_push_pop
    {T Compare : Type} (Compare_default : Compare)
    (call : Compare -> T -> T -> bool) (oc : option Compare)
    (ops : list (op T)) (k : nat) :
  strict_weak_order (call (default_arg Compare_default oc)) ->
  Z.of_nat (length ops) <= HALF_MAX ->
  exists q,
    run call (pq_new Compare_default oc) (take k ops) = Returns q /\
    is_heap (call (compare q)) (container q).
Proof.
  intros Hswo Hlen.
  destruct (run_heap call (take k ops) (pq_new Compare_default oc))
    as (q & Hrun & _ & Hheap).
  - done.
  - apply is_heap_nil.
  - simpl. rewrite length_take. unfold size. simpl. lia.
  - by exists q.
Qed.

Lemma heap_invariant_after_push_pop_witness :
  strict_weak_order (call_less (default_arg Less None)) /\
  Z.of_nat (length [Push 5; Push 3; Push 8; Pop; Push 1]) <= HALF_MAX /\
  exists q,
    run call_less (pq_new Less None)
      (take 4 [Push 5; Push 3; Push 8; Pop; Push 1]) = Returns q /\
    is_heap (call_less (compare q)) (container q).
Proof.
  assert (H1 : strict_weak_order (call_less (default_arg Less None)))
    by (split; intros; order_by_lia).
  assert (H2 : Z.of_nat (length [Push 5; Push 3; Push 8; Pop; Push 1]) <= HALF_MAX)
    by (rewrite HALF_MAX_val; simpl; lia).
  split; [exact H1|]. split; [exact H2|].
  exact (heap_invariant_after_push_pop Less call_less None
           [Push 5; Push 3; Push 8; Pop; Push 1] 4 H1 H2).
Defined.

(** C2. A queue built from a list of elements, by the range constructor or
    by the bulk-heapify constructor, is emptied by repeated [top] and [pop]
    into a sequence that is a permutation of the list and in which no element
    ranks below a later one under the ordering (non-increasing for a
    less-than ordering, non-decreasing for a greater-than ordering, see
    [sorted_desc_less] and [sorted_desc_greater]). *)
Theorem pop_sequence_is_sorted_multiset
    {T Compare : Type} (Compare_default : Compare)
    (call : Compare -> T -> T -> bool) (oc : option Compare) (l : list T) :
  strict_weak_order (call (default_arg Compare_default oc)) ->
  size l <= HALF_MAX ->
  (exists q out,
     pq_of_range Compare_default call l oc = Returns q /\
     pop_sequence call q = Returns out /\
     out ≡ₚ l /\ sorted_desc (call (default_arg Compare_default oc)) out) /\
  (exists q out,
     pq_of_container call (default_arg Compare_default oc) l = Returns q /\
     pop_sequence call q = Returns out /\
     out ≡ₚ l /\ sorted_desc (call (default_arg Compare_default oc)) out).
Proof.
  intros Hswo Hsz. split.
  - destruct (pq_of_range_heap Compare_default call l oc Hswo Hsz)
      as (q & Hq & Hcmp & Hheap & Hperm).
    destruct (pop_sequence_sorted call q) as (out & Hout & Hperm' & Hsorted).
    + by rewrite Hcmp.
    + done.
    + unfold size in *. by rewrite Hperm.
    + exists q, out. rewrite Hcmp in Hsorted. repeat split; try done.
      by rewrite Hperm'.
  - destruct (pq_of_container_heap call (default_arg Compare_default oc) l Hswo Hsz)
      as (q & Hq & Hcmp & Hheap & Hperm).
    destruct (pop_sequence_sorted call q) as (out & Hout & Hperm' & Hsorted).
    + by rewrite Hcmp.
    + done.
    + unfold size in *. by rewrite Hperm.
    + exists q, out. rewrite Hcmp in Hsorted. repeat split; try done.
      by rewrite Hperm'.
Qed.

Lemma pop_sequence_is_sorted_multiset_witness :
  strict_weak_order (call_greater (default_arg Greater None)) /\
  size sample <= HALF_MAX /\
  (exists q out,
     pq_of_range Greater call_greater sample None = Returns q /\
     pop_sequence call_greater q = Returns out /\
     out ≡ₚ sample /\ sorted_desc (call_greater (default_arg Greater None)) out) /\
  (exists q out,
     pq_of_container call_greater (default_arg Greater None) sample = Returns q /\
     pop_sequence call_greater q = Returns out /\
     out ≡ₚ sample /\ sorted_desc (call_greater (default_arg Greater None)) out).
Proof.
  assert (H1 : strict_weak_order (call_greater (default_arg Greater None)))
    by (split; intros; order_by_lia).
  assert (H2 : size sample <= HALF_MAX) by (rewrite HALF_MAX_val; vm_compute; discriminate).
  split; [exact H1|]. split; [exact H2|].
  exact (pop_sequence_is_sorted_multiset Greater call_greater None sample H1 H2).
Defined.

(** C3, as stated, fails for records that a strict weak ordering ranks by
    their key alone: pushed one at a time, the records [(1,0); (1,1); (2,2);
    (2,3)] leave [(2,2)] on top, bulk-heapified they leave [(2,3)] on top, and
    the two pop sequences differ. *)
Lemma construction_order_observable :
  strict_weak_order (call_by_key Less) /\
  exists q1 q2,
    pq_of_range Less call_by_key records None = Returns q1 /\
    pq_of_container call_by_key Less records = Returns q2 /\
    top q1 = Returns (2, 2) /\ top q2 = Returns (2, 3) /\
    top q1 <> top q2 /\
    pop_sequence call_by_key q1 = Returns [(2, 2); (2, 3); (1, 0); (1, 1)] /\
    pop_sequence call_by_key q2 = Returns [(2, 3); (2, 2); (1, 1); (1, 0)] /\
    pop_sequence call_by_key q1 <> pop_sequence call_by_key q2.
Proof.
  split; [apply by_key_strict_weak_order|].
  eexists. eexists.
  split; [vm_compute; reflexivity|].
  split; [vm_compute; reflexivity|].
  vm_compute. repeat split; congruence.
Qed.

(** C3 (amended). For the input [5; 3; 8; 1; 9; 2] under less-than, pushing
    one element at a time and bulk-heapifying the pre-loaded container give
    queues with the same [top], 9, and the same pop sequence 9, 8, 5, 3, 2, 1.
    In general, for every input list and every strict weak ordering, the two
    constructions return queues whose pop sequences agree position by
    position up to equivalence under the ordering (neither element ranks
    below the other), [top] answering the first element of the sequence; when
    the ordering is total (equivalent elements are equal), the [top] results
    and the pop sequences are equal. *)
Theorem construction_equivalence :
  (exists q1 q2,
     pq_of_range Less call_less sample None = Returns q1 /\
     pq_of_container call_less Less sample = Returns q2 /\
     top q1 = Returns 9 /\ top q2 = Returns 9 /\
     pop_sequence call_less q1 = Returns [9; 8; 5; 3; 2; 1] /\
     pop_sequence call_less q2 = Returns [9; 8; 5; 3; 2; 1]) /\
  (forall (T Compare : Type) (Compare_default : Compare)
          (call : Compare -> T -> T -> bool) (oc : option Compare) (l : list T),
     strict_weak_order (call (default_arg Compare_default oc)) ->
     size l <= HALF_MAX ->
     exists q1 q2 out1 out2,
       pq_of_range Compare_default call l oc = Returns q1 /\
       pq_of_container call (default_arg Compare_default oc) l = Returns q2 /\
       pop_sequence call q1 = Returns out1 /\
       pop_sequence call q2 = Returns out2 /\
       top q1 = first_of out1 /\
       top q2 = first_of out2 /\
       Forall2 (equivalent (call (default_arg Compare_default oc))) out1 out2 /\
       (total_order (call (default_arg Compare_default oc)) ->
        top q1 = top q2 /\ out1 = out2)).
Proof.
  split.
  - eexists. eexists.
    split; [vm_compute; reflexivity|].
    split; [vm_compute; reflexivity|].
    vm_compute. by repeat split.
  - intros. by apply constructions_agree.
Qed.

Lemma construction_equivalence_witness :
  strict_weak_order (call_less (default_arg Less None)) /\
  total_order (call_less (default_arg Less None)) /\
  size [4; 7; 4; 1] <= HALF_MAX /\
  exists q1 q2 out,
    pq_of_range Less call_less [4; 7; 4; 1] None = Returns q1 /\
    pq_of_container call_less (default_arg Less None) [4; 7; 4; 1] = Returns q2 /\
    top q1 = top q2 /\
    pop_sequence call_less q1 = Returns out /\
    pop_sequence call_less q2 = Returns out.
Proof.
  assert (H1 : strict_weak_order (call_less (default_arg Less None)))
    by (split; intros; order_by_lia).
  assert (H2 : total_order (call_less (default_arg Less None)))
    by (intros x y; order_by_lia).
  assert (H3 : size [4; 7; 4; 1] <= HALF_MAX)
    by (rewrite HALF_MAX_val; vm_compute; discriminate).
  split; [exact H1|]. split; [exact H2|]. split; [exact H3|].
  destruct (proj2 construction_equivalence Z std_less Less call_less None
              [4; 7; 4; 1] H1 H3)
    as (q1 & q2 & out1 & out2 & Hq1 & Hq2 & Ho1 & Ho2 & _ & _ & _ & Htot).
  destruct (Htot H2) as [Htop <-].
  exists q1, q2, out1. repeat split; assumption.
Defined.

(** C4, as stated, fails: the copy constructor takes the ordering from its
    argument [c], which is a default-constructed [Compare] unless supplied,
    and never from the source. A min-heap kept under a comparator object
    flagged [descending] is copied into a queue with the default (ascending)
    comparator, or with an explicitly supplied ascending one, and the copy
    violates the heap invariant under its own ordering. *)
Lemma copy_does_not_keep_ordering :
  is_heap (call_ordered_by (compare min_queue)) (container min_queue) /\
  compare (pq_copy ascending min_queue None) <> compare min_queue /\
  ~ is_heap (call_ordered_by (compare (pq_copy ascending min_queue None)))
            (container (pq_copy ascending min_queue None)) /\
  ~ is_heap (call_ordered_by (compare (pq_copy ascending min_queue (Some ascending))))
            (container (pq_copy ascending min_queue (Some ascending))) /\
  ~ is_heap (call_ordered_by (compare (pq_move ascending min_queue None)))
            (container (pq_move ascending min_queue None)).
Proof.
  split; [by apply is_heapb_sound|].
  split; [done|].
  repeat split; intros H; by specialize (H 1 ltac:(lia) 2 1 2 ltac:(lia) eq_refl eq_refl).
Qed.

(** C4 (amended). Copy construction duplicates the storage and move
    construction takes it over unchanged; the ordering of the new queue is the
    constructor's argument, a default-constructed [Compare] when none is
    supplied, and the source's comparator object is not consulted; no
    re-heapify pass runs; and the new queue satisfies the heap invariant under
    its ordering whenever that ordering agrees with the ordering under which
    the source satisfies it. *)
Theorem copy_move_construction
    {T Compare : Type} (Compare_default : Compare)
    (call : Compare -> T -> T -> bool)
    (rhs : priority_queue T Compare) (oc : option Compare) :
  container (pq_copy Compare_default rhs oc) = container rhs /\
  compare (pq_copy Compare_default rhs oc) = default_arg Compare_default oc /\
  container (pq_move Compare_default rhs oc) = container rhs /\
  compare (pq_move Compare_default rhs oc) = default_arg Compare_default oc /\
  ((forall a b, call (default_arg Compare_default oc) a b = call (compare rhs) a b) ->
   is_heap (call (compare rhs)) (container rhs) ->
   is_heap (call (compare (pq_copy Compare_default rhs oc)))
           (container (pq_copy Compare_default rhs oc)) /\
   is_heap (call (compare (pq_move Compare_default rhs oc)))
           (container (pq_move Compare_default rhs oc))).
Proof.
  repeat split; simpl; intros i Hi s x y Hs Hx Hy; rewrite H;
    by apply (H0 i Hi s x y).
Qed.

Lemma copy_move_construction_witness :
  (forall a b, call_ordered_by (default_arg ascending (Some {| descending := true |})) a b
               = call_ordered_by (compare min_queue) a b) /\
  is_heap (call_ordered_by (compare min_queue)) (container min_queue) /\
  is_heap (call_ordered_by
             (compare (pq_copy ascending min_queue (Some {| descending := true |}))))
          (container (pq_copy ascending min_queue (Some {| descending := true |}))) /\
  is_heap (call_ordered_by
             (compare (pq_move ascending min_queue (Some {| descending := true |}))))
          (container (pq_move ascending min_queue (Some {| descending := true |}))).
Proof.
  assert (H1 : forall a b,
      call_ordered_by (default_arg ascending (Some {| descending := true |})) a b
      = call_ordered_by (compare min_queue) a b) by reflexivity.
  assert (H2 : is_heap (call_ordered_by (compare min_queue)) (container min_queue))
    by (apply is_heapb_sound; reflexivity).
  split; [exact H1|]. split; [exact H2|].
  exact (proj2 (proj2 (proj2 (proj2
           (copy_move_construction ascending call_ordered_by min_queue
              (Some {| descending := true |}))))) H1 H2).
Defined.

(** C5. On a non-empty queue [top] returns the element at storage position
    0; [top] is a function of the queue alone and yields no new state. When
    the comparator is a strict weak ordering and the heap invariant holds,
    that element does not rank below any stored element. On an empty queue
    [top] throws [out_of_range] and returns no value. No other operation
    throws: [push], [pop], [heapify] and the constructors that run them never
    leave by an exception. *)
Theorem top_specification
    {T Compare : Type} (Compare_default : Compare)
    (call : Compare -> T -> T -> bool) (q : priority_queue T Compare) :
  (pq_empty q = false ->
   exists x, container q !! 0%nat = Some x /\ top q = Returns x) /\
  (pq_empty q = true -> top q = Throws out_of_range) /\
  (strict_weak_order (call (compare q)) ->
   is_heap (call (compare q)) (container q) ->
   forall x y, top q = Returns x -> y ∈ container q ->
               call (compare q) x y = false) /\
  (forall e t, push call q t <> Throws e) /\
  (forall e, pop call q <> Throws e) /\
  (forall e, heapify call q <> Throws e) /\
  (forall e range oc, pq_of_range Compare_default call range oc <> Throws e) /\
  (forall e k rhs, pq_of_container call k rhs <> Throws e).
Proof.
  split; [apply top_nonempty|]. split; [apply top_empty|].
  split.
  { intros Hswo Hheap x y Htop Hy.
    destruct (pq_empty q) eqn:He.
    - by rewrite (top_empty q He) in Htop.
    - destruct (top_nonempty q He) as (x' & Hx' & Htop').
      rewrite Htop' in Htop. injection Htop as ->.
      by apply (root_maximal _ Hswo (container q)). }
  repeat split; intros.
  - apply push_not_Throws.
  - apply pop_not_Throws.
  - apply heapify_not_Throws.
  - apply push_range_not_Throws.
  - apply heapify_not_Throws.
Qed.

Lemma top_specification_witness :
  let q := {| container := [9; 5; 8; 1]; compare := Less |} in
  pq_empty q = false /\
  strict_weak_order (call_less (compare q)) /\
  is_heap (call_less (compare q)) (container q) /\
  (exists x, container q !! 0%nat = Some x /\ top q = Returns x) /\
  (forall x y, top q = Returns x -> y ∈ container q ->
               call_less (compare q) x y = false) /\
  (pq_empty (pq_new Less None : priority_queue Z std_less) = true /\
   top (pq_new Less None : priority_queue Z std_less) = Throws out_of_range).
Proof.
  intros q.
  assert (H1 : pq_empty q = false) by reflexivity.
  assert (H2 : strict_weak_order (call_less (compare q)))
    by (split; intros; order_by_lia).
  assert (H3 : is_heap (call_less (compare q)) (container q))
    by (apply is_heapb_sound; reflexivity).
  assert (H4 : pq_empty (pq_new Less None : priority_queue Z std_less) = true)
    by reflexivity.
  split; [exact H1|]. split; [exact H2|]. split; [exact H3|].
  split; [exact (proj1 (top_specification Less call_less q) H1)|].
  split; [exact (proj1 (proj2 (proj2 (top_specification Less call_less q))) H2 H3)|].
  split; [exact H4|].
  exact (proj1 (proj2 (top_specification Less call_less (pq_new Less None))) H4).
Defined.

(** C6. [pop] on an empty queue returns the queue unchanged, with size 0,
    and raises nothing. On a non-empty queue it swaps the first and the last
    element, removes the last, runs [percolateDown] from heap index 1 and
    returns the result: the size decreases by exactly one, and when the
    comparator is a strict weak ordering and the heap invariant held before,
    it holds again afterwards. *)
Theorem pop_specification
    {T Compare : Type} (call : Compare -> T -> T -> bool)
    (q : priority_queue T Compare) :
  (pq_empty q = true -> pop call q = Returns q /\ pq_size q = 0) /\
  (pq_empty q = false -> pq_size q <= HALF_MAX ->
   exists x y r,
     node (container q) 1 = Some x /\
     node (container q) (pq_size q) = Some y /\
     swap_at (container q) 0 (wrap (pq_size q - 1))
       = Returns (exchanged (container q) 1 (pq_size q) x y) /\
     percolateDown (call (compare q))
       (pop_back (exchanged (container q) 1 (pq_size q) x y)) 1 = Returns r /\
     pop call q = Returns (with_container q (fst r)) /\
     pq_size (with_container q (fst r)) = pq_size q - 1 /\
     (strict_weak_order (call (compare q)) ->
      is_heap (call (compare q)) (container q) ->
      is_heap (call (compare q)) (fst r))).
Proof.
  split.
  - intros He. unfold pop, pop_container, pq_size, pq_empty in *. rewrite He. simpl.
    rewrite with_container_same. split; [done|].
    apply empty_true in He. by rewrite He.
  - intros He Hsz. unfold pq_size, pq_empty in *. apply empty_false in He.
    destruct (pop_container_nonempty (call (compare q)) (container q) He Hsz)
      as (x & y & r & Hx & Hy & Hswap & Hr & Hpop & Hlen & _).
    exists x, y, r. repeat split; try done.
    + unfold pop. by rewrite Hpop.
    + simpl. unfold size. rewrite Hlen.
      destruct (container q); simpl in *; (done || lia).
    + intros Hswo Hheap.
      by apply (pop_container_heap _ Hswo (container q)).
Qed.

Lemma pop_specification_witness :
  let e : priority_queue Z std_less := pq_new Less None in
  let q : priority_queue Z std_less := {| container := [9; 5; 8; 1]; compare := Less |} in
  pq_empty e = true /\ pq_empty q = false /\ pq_size q <= HALF_MAX /\
  (pop call_less e = Returns e /\ pq_size e = 0) /\
  exists x y r,
    node (container q) 1 = Some x /\
    node (container q) (pq_size q) = Some y /\
    swap_at (container q) 0 (wrap (pq_size q - 1))
      = Returns (exchanged (container q) 1 (pq_size q) x y) /\
    percolateDown (call_less (compare q))
      (pop_back (exchanged (container q) 1 (pq_size q) x y)) 1 = Returns r /\
    pop call_less q = Returns (with_container q (fst r)) /\
    pq_size (with_container q (fst r)) = pq_size q - 1 /\
    (strict_weak_order (call_less (compare q)) ->
     is_heap (call_less (compare q)) (container q) ->
     is_heap (call_less (compare q)) (fst r)).
Proof.
  intros e q.
  assert (H1 : pq_empty e = true) by reflexivity.
  assert (H2 : pq_empty q = false) by reflexivity.
  assert (H3 : pq_size q <= HALF_MAX) by (rewrite HALF_MAX_val; vm_compute; discriminate).
  split; [exact H1|]. split; [exact H2|]. split; [exact H3|].
  split; [exact (proj1 (pop_specification call_less e) H1)|].
  exact (proj2 (pop_specification call_less q) H2 H3).
Defined.

(** C7. With a greater-than comparator the queue is a min-heap: built from
    [5; 3; 8; 1; 9; 2], by pushes or by bulk heapify, it pops 1, 2, 3, 5, 8,
    9, the reverse of the pop sequence 9, 8, 5, 3, 2, 1 of the same input
    under less-than. *)
Theorem min_heap_inversion :
  (do q <- pq_of_range Greater call_greater sample None;
   pop_sequence call_greater q) = Returns [1; 2; 3; 5; 8; 9] /\
  (do q <- pq_of_container call_greater Greater sample;
   pop_sequence call_greater q) = Returns [1; 2; 3; 5; 8; 9] /\
  (do q <- pq_of_range Less call_less sample None;
   pop_sequence call_less q) = Returns (rev [1; 2; 3; 5; 8; 9]) /\
  (do q <- pq_of_container call_less Less sample;
   pop_sequence call_less q) = Returns (rev [1; 2; 3; 5; 8; 9]).
Proof. repeat split; vm_compute; reflexivity. Qed.

(** C8. [swap] exchanges storage and comparator of its two arguments. With
    [10] and [4] pushed into [A] and [7] pushed into [B], after the swap [A]
    has top 7 and size 1 and [B] has top 10 and size 2. *)
Theorem swap_exchanges_state :
  (forall (T Compare : Type) (A B : priority_queue T Compare),
     swap A B = (B, A)) /\
  (exists A B : priority_queue Z std_less,
     push_range call_less (pq_new Less None) [10; 4] = Returns A /\
     push_range call_less (pq_new Less None) [7] = Returns B /\
     top (fst (swap A B)) = Returns 7 /\ pq_size (fst (swap A B)) = 1 /\
     top (snd (swap A B)) = Returns 10 /\ pq_size (snd (swap A B)) = 2).
Proof.
  split.
  - intros T Compare [ca ka] [cb kb]. reflexivity.
  - eexists. eexists.
    split; [vm_compute; reflexivity|].
    split; [vm_compute; reflexivity|].
    vm_compute. by repeat split.
Qed.

(** C9, as stated, fails: [size_t] arithmetic wraps. For [indexHeap = 2^63]
    the left child index [indexHeap * 2] is 0 and the right one is 1. On an
    empty container the guard [indexBigger <= size()] is [0 <= 0], so
    [container[2^63 - 1]] and [container[0 - 1]] are read; on a one-element
    container the guard [indexRight <= size()] is [1 <= 1], so
    [container[0 - 1]] is read. For [indexHeap = 2^63 + 1] on three elements
    the children wrap to 2 and 3 and [container[2^63]] is read. *)
Lemma percolateDown_wrapped_index_reads_outside :
  1 <= 2 ^ 63 <= SIZE_MAX /\
  percolateDown Z.ltb ([] : list Z) (2 ^ 63) = Undefined /\
  percolateDown Z.ltb [7] (2 ^ 63) = Undefined /\
  percolateDown Z.ltb [1; 2; 3] (2 ^ 63 + 1) = Undefined.
Proof. repeat split; vm_compute; congruence. Qed.

(** C9 (amended). For every call with [1 <= indexHeap <= SIZE_MAX / 2], so
    that neither [2 * indexHeap] nor [2 * indexHeap + 1] wraps, on a container
    of at most [SIZE_MAX / 2] elements, every element access of
    [percolateDown] is inside the storage: the call returns. So does [pop],
    whose swap reads positions [0] and [size() - 1] of a non-empty container.
    [percolateDown(1)] on an empty container, where any access would be
    outside, returns [false] and leaves the container as it is. *)
Theorem percolateDown_accesses_in_bounds
    {T : Type} (cmp : T -> T -> bool) (c : list T) (indexHeap : Z) :
  1 <= indexHeap <= HALF_MAX ->
  size c <= HALF_MAX ->
  (exists r, percolateDown cmp c indexHeap = Returns r) /\
  (exists c', pop_container cmp c = Returns c') /\
  (forall k, at_ ([] : list T) k = Undefined) /\
  percolateDown cmp [] 1 = Returns ([], false).
Proof.
  intros Hi Hsz. split; [by apply percolateDown_returns|]. split.
  - destruct (decide (c = [])) as [->|Hne]; [by exists []|].
    destruct (pop_container_nonempty cmp c Hne Hsz)
      as (x & y & r & _ & _ & _ & _ & Hpop & _).
    eauto.
  - split; [|reflexivity].
    intros k. apply at_outside. unfold size. simpl. lia.
Qed.

Lemma percolateDown_accesses_in_bounds_witness :
  1 <= 1 <= HALF_MAX /\
  size [2; 9; 4; 7] <= HALF_MAX /\
  (exists r, percolateDown Z.ltb [2; 9; 4; 7] 1 = Returns r) /\
  (exists c', pop_container Z.ltb [2; 9; 4; 7] = Returns c') /\
  (forall k, at_ ([] : list Z) k = Undefined) /\
  percolateDown Z.ltb [] 1 = Returns ([], false).
Proof.
  assert (H1 : 1 <= 1 <= HALF_MAX) by (rewrite HALF_MAX_val; lia).
  assert (H2 : size [2; 9; 4; 7] <= HALF_MAX)
    by (rewrite HALF_MAX_val; vm_compute; discriminate).
  split; [exact H1|]. split; [exact H2|].
  exact (percolateDown_accesses_in_bounds Z.ltb [2; 9; 4; 7] 1 H1 H2).
Defined.

(** C10, as stated, fails above [SIZE_MAX / 2], where the child indices
    wrap. For [indexHeap = 2^63 + 1] on three elements the children are
    computed as 2 and 3, both guards pass, and the index selected for the swap
    and the recursive call is 3, far below [2 * indexHeap]; the parent read
    [container[2^63]] is outside the storage, so the call produces no result
    under any recursion budget. The same holds for [indexHeap = 2^63] on one
    element, where the children are computed as 0 and 1. *)
Lemma percolateDown_wrapped_index_does_not_return :
  1 <= 2 ^ 63 + 1 <= SIZE_MAX /\
  wrap ((2 ^ 63 + 1) * 2) = 2 /\
  wrap (wrap ((2 ^ 63 + 1) * 2) + 1) = 3 /\
  (wrap (wrap ((2 ^ 63 + 1) * 2) + 1) <=? size [1; 2; 3]) = true /\
  3 < 2 * (2 ^ 63 + 1) /\
  (forall fuel, percolateDown_fuel fuel Z.ltb [1; 2; 3] (2 ^ 63 + 1) = Undefined) /\
  (forall fuel r, percolateDown_fuel fuel Z.ltb [1; 2; 3] (2 ^ 63 + 1) <> Returns r) /\
  (forall fuel, percolateDown_fuel fuel Z.ltb [7] (2 ^ 63) = Undefined) /\
  (forall fuel r, percolateDown_fuel fuel Z.ltb [7] (2 ^ 63) <> Returns r).
Proof.
  assert (H1 : forall fuel,
    percolateDown_fuel fuel Z.ltb [1; 2; 3] (2 ^ 63 + 1) = Undefined)
    by (intros [|fuel]; vm_compute; reflexivity).
  assert (H2 : forall fuel, percolateDown_fuel fuel Z.ltb [7] (2 ^ 63) = Undefined)
    by (intros [|fuel]; vm_compute; reflexivity).
  split; [vm_compute; split; discriminate|].
  split; [reflexivity|]. split; [reflexivity|]. split; [reflexivity|].
  split; [reflexivity|].
  split; [exact H1|]. split; [intros fuel r; by rewrite H1|].
  split; [exact H2|]. intros fuel r. by rewrite H2.
Qed.

(** C10 (amended). On a container of at most [SIZE_MAX / 2] elements, for
    every comparator and every call with [1 <= indexHeap <= SIZE_MAX / 2]:
    a recursive call of [percolateDown] is made at an index [indexBigger]
    with [2 * indexHeap <= indexBigger <= size()], on a container of the same
    size, and the call returns, with the same result under every recursion
    budget of at least [size()] calls. The ancestor loop of [push] (on a
    container with room for one more element), [pop] and [heapify], which
    call [percolateDown] with such indices only, return. *)
Theorem percolateDown_terminates_without_wrap
    {T : Type} (cmp : T -> T -> bool) (c : list T) :
  size c <= HALF_MAX ->
  (forall indexHeap c' indexBigger,
     1 <= indexHeap <= HALF_MAX ->
     percolate_step cmp c indexHeap = Returns (Some (c', indexBigger)) ->
     2 * indexHeap <= indexBigger <= size c /\ size c' = size c) /\
  (forall indexHeap,
     1 <= indexHeap <= HALF_MAX ->
     exists r, percolateDown cmp c indexHeap = Returns r /\
               forall fuel, (length c <= fuel)%nat ->
                            percolateDown_fuel fuel cmp c indexHeap = Returns r) /\
  (forall t, size c < HALF_MAX -> exists c', push_container cmp c t = Returns c') /\
  (exists c', pop_container cmp c = Returns c') /\
  (exists c', heapify_container cmp c = Returns c').
Proof.
  intros Hsz.
  assert (Hhalf : HALF_MAX <= SIZE_MAX) by (vm_compute; discriminate).
  split; [|split; [|split; [|split]]].
  - intros indexHeap c' indexBigger Hi Hstep.
    apply (percolate_step_bounds cmp c indexHeap c' indexBigger); (done || lia).
  - intros indexHeap Hi.
    destruct (percolateDown_returns cmp c indexHeap Hi Hsz) as [r Hr].
    exists r. split; [done|]. intros fuel Hfuel.
    by apply (percolateDown_fuel_mono cmp (length c)).
  - intros t Hlt.
    destruct (push_container_returns cmp c t Hlt) as (c' & Hc' & _). eauto.
  - destruct (decide (c = [])) as [->|Hne]; [by exists []|].
    destruct (pop_container_nonempty cmp c Hne Hsz)
      as (x & y & r & _ & _ & _ & _ & Hpop & _).
    eauto.
  - destruct (heapify_container_returns cmp c Hsz) as (c' & Hc' & _). eauto.
Qed.

Lemma percolateDown_terminates_without_wrap_witness :
  size [2; 9; 4; 7; 1] <= HALF_MAX /\
  1 <= 1 <= HALF_MAX /\
  percolate_step Z.ltb [2; 9; 4; 7; 1] 1 = Returns (Some ([9; 2; 4; 7; 1], 2)) /\
  size [2; 9; 4; 7; 1] < HALF_MAX /\
  (2 * 1 <= 2 <= size [2; 9; 4; 7; 1] /\
   size [9; 2; 4; 7; 1] = size [2; 9; 4; 7; 1]) /\
  (exists r, percolateDown Z.ltb [2; 9; 4; 7; 1] 1 = Returns r /\
             forall fuel, (length [2; 9; 4; 7; 1] <= fuel)%nat ->
               percolateDown_fuel fuel Z.ltb [2; 9; 4; 7; 1] 1 = Returns r) /\
  (exists c', push_container Z.ltb [2; 9; 4; 7; 1] 6 = Returns c') /\
  (exists c', pop_container Z.ltb [2; 9; 4; 7; 1] = Returns c') /\
  (exists c', heapify_container Z.ltb [2; 9; 4; 7; 1] = Returns c').
Proof.
  assert (H1 : size [2; 9; 4; 7; 1] <= HALF_MAX)
    by (rewrite HALF_MAX_val; vm_compute; discriminate).
  assert (H2 : 1 <= 1 <= HALF_MAX) by (rewrite HALF_MAX_val; lia).
  assert (H3 : percolate_step Z.ltb [2; 9; 4; 7; 1] 1
               = Returns (Some ([9; 2; 4; 7; 1], 2)))
    by (vm_compute; reflexivity).
  assert (H4 : size [2; 9; 4; 7; 1] < HALF_MAX)
    by (rewrite HALF_MAX_val; vm_compute; reflexivity).
  split; [exact H1|]. split; [exact H2|]. split; [exact H3|]. split; [exact H4|].
  destruct (percolateDown_terminates_without_wrap Z.ltb [2; 9; 4; 7; 1] H1)
    as (Hstep & Hret & Hpush & Hpop & Hheapify).
  split; [exact (Hstep 1 [9; 2; 4; 7; 1] 2 H2 H3)|].
  split; [exact (Hret 1 H2)|].
  split; [exact (Hpush 6 H4)|].
  split; [exact Hpop|exact Hheapify].
Defined.

(** * Further properties of the operations *)

(** ** percolateDown *)

Section PercolateMore.

Context {T : Type}.
Variable cmp : T -> T -> bool.
Implicit Types (c : list T) (i j p b : Z) (x y : T).

(** After a swap the child's element sits at the index of the call. *)
Lemma percolateDown_fuel_swapped fuel c i c' :
  1 <= i <= HALF_MAX -> size c <= HALF_MAX ->
  percolateDown_fuel fuel cmp c i = Returns (c', true) ->
  exists x y,
    node c i = Some x /\ node c (bigger_child cmp c i) = Some y /\
    cmp x y = true /\ node c' i = Some y.
Proof.
  intros Hi Hsz Hrun.
  apply percolateDown_fuel_inv in Hrun
    as [(Hf & _)|(f & x & y & ch' & Hf & _ & Hx & Hy & Hxy & Hrec)];
    try done.
  pose proof (bigger_child_gt cmp c i ltac:(lia)) as Hb.
  pose proof (node_Some_le _ _ _ Hy) as Hble.
  set (b := bigger_child cmp c i) in *.
  destruct (percolateDown_fuel_frame cmp f (exchanged c i b x y) b c' ch')
    as (_ & _ & _ & Hframe & _); [lia|by rewrite size_exchanged|done|].
  exists x, y. repeat split; try done.
  rewrite Hframe by lia.
  rewrite (node_exchanged c i b x y i) by (done || lia).
  rewrite decide_False by lia. by rewrite decide_True.
Qed.

(** Where parent and children are in order nothing is swapped. *)
Lemma percolateDown_at_ordered c i :
  1 <= i <= HALF_MAX -> heap_at cmp c i ->
  percolateDown cmp c i = Returns (c, false).
Proof.
  intros Hi Hheap. unfold percolateDown.
  assert (Hstep : percolate_step cmp c i = Returns None).
  { rewrite percolate_step_nowrap by done. cbv zeta.
    destruct (node c i) as [x|] eqn:Hx; [|done].
    destruct (node c (bigger_child cmp c i)) as [y|] eqn:Hy; [|done].
    rewrite (Hheap (bigger_child cmp c i) x y); try done.
    destruct (bigger_child_cases cmp c i); auto. }
  destruct (length c); simpl; by rewrite Hstep.
Qed.

Lemma heapify_loop_ordered (k : nat) : forall c,
  Z.of_nat k <= HALF_MAX ->
  (forall j, 1 <= j <= Z.of_nat k -> heap_at cmp c j) ->
  heapify_loop cmp k c = Returns c.
Proof.
  induction k as [|k IH]; intros c Hk Hheap; [done|].
  unfold heapify_loop; fold (heapify_loop (T:=T)).
  rewrite percolateDown_at_ordered by (try apply Hheap; lia). simpl.
  apply IH; [lia|]. intros j Hj. apply Hheap. lia.
Qed.

Lemma heapify_container_ordered c :
  size c <= HALF_MAX -> is_heap cmp c -> heapify_container cmp c = Returns c.
Proof.
  intros Hsz Hheap. pose proof (size_nonneg c).
  apply heapify_loop_ordered; [lia|]. intros j Hj. apply Hheap. lia.
Qed.

Lemma percolate_step_zero c :
  size c <= SIZE_MAX -> percolate_step cmp c 0 = Undefined.
Proof.
  intros Hsz. unfold percolate_step.
  change (wrap (0 * 2)) with 0. change (wrap (0 + 1)) with 1.
  change (wrap (1 - 1)) with 0. change (wrap (0 - 1)) with SIZE_MAX.
  assert (Hout : at_ c SIZE_MAX = Undefined) by (apply at_outside; lia).
  pose proof (size_nonneg c).
  destruct (Z.leb_spec 1 (size c)); simpl.
  - by rewrite Hout.
  - destruct (Z.leb_spec 0 (size c)); [|lia]. by rewrite Hout.
Qed.

Lemma push_loop_zero fuel c : push_loop fuel cmp c 0 = Returns c.
Proof. by destruct fuel. Qed.

(** The root after the ancestor walk of [push]: the old root, or an element
    the old root ranks below. *)
Lemma push_loop_root fuel : forall c index c',
  0 <= index <= HALF_MAX -> size c <= HALF_MAX ->
  push_loop fuel cmp c index = Returns c' ->
  node c' 1 = node c 1 \/
  exists x y, node c 1 = Some x /\ node c' 1 = Some y /\ y ∈ c /\ cmp x y = true.
Proof.
  induction fuel as [|fuel IH]; intros c index c' Hi Hsz;
    unfold push_loop; fold (push_loop (T:=T));
    (destruct (Z.eqb_spec index 0) as [->|Hne]; [intros [= <-]; by left|]);
    destruct (percolateDown cmp c index) as [[c1 [|]]| | |] eqn:Hr;
    simpl; try done;
    destruct (percolateDown_fuel_frame cmp (length c) c index c1 _
                ltac:(lia) Hsz Hr) as (Hlen & Hperm & Hsame & Hframe & _);
    try (intros [= <-]; rewrite (Hsame eq_refl); by left).
  intros Hrun. destruct (decide (index = 1)) as [->|Hne1].
  - change (1 / 2) with 0 in Hrun. rewrite push_loop_zero in Hrun.
    injection Hrun as <-.
    destruct (percolateDown_fuel_swapped (length c) c 1 c1 ltac:(lia) Hsz Hr)
      as (x & y & Hx & Hy & Hxy & Hy').
    right. exists x, y. repeat split; try done.
    apply list_elem_of_lookup. eauto.
  - assert (Hroot : node c1 1 = node c 1) by (apply Hframe; lia).
    apply IH in Hrun as [Hsame'|(x & y & Hx & Hy & Hin & Hxy)];
      [| |lia|unfold size in *; lia].
    + left. congruence.
    + right. exists x, y. rewrite <- Hroot. repeat split; try done.
      by rewrite <- Hperm.
Qed.

End PercolateMore.

(** ** The queue operations under an arbitrary comparator *)

Section QueueMore.

Context {T Compare : Type}.
Variable Compare_default : Compare.
Variable call : Compare -> T -> T -> bool.
Implicit Types (q : priority_queue T Compare) (t x y : T) (c : list T).

Lemma push_range_returns (range : list T) : forall q,
  size (container q) + Z.of_nat (length range) <= HALF_MAX ->
  exists q', push_range call q range = Returns q' /\ compare q' = compare q /\
             container q' ≡ₚ container q ++ range.
Proof.
  induction range as [|t range IH]; intros q Hsz.
  - exists q. by rewrite app_nil_r.
  - simpl in Hsz. simpl.
    destruct (push_returns call q t) as (q1 & Hq1 & Hcmp & Hperm & Hlen); [lia|].
    rewrite Hq1. simpl.
    destruct (IH q1) as (q' & Hrun & Hcmp' & Hperm'); [unfold size in *; lia|].
    exists q'. repeat split; [done|congruence|].
    rewrite Hperm', Hperm. by rewrite <- Permutation_middle.
Qed.

Lemma run_size (ops : list (op T)) : forall q,
  pq_size q + Z.of_nat (length ops) <= HALF_MAX ->
  exists q', run call q ops = Returns q' /\ compare q' = compare q /\
             pq_size q' = size_after (pq_size q) ops.
Proof.
  induction ops as [|o ops IH]; intros q Hsz; [by exists q|].
  unfold pq_size in *. simpl in Hsz.
  pose proof (size_nonneg (container q)).
  destruct o as [t|]; simpl.
  - destruct (push_returns call q t) as (q1 & -> & Hcmp & _ & Hlen); [lia|].
    simpl. assert (Hsz1 : size (container q1) = size (container q) + 1)
      by (unfold size; lia).
    destruct (IH q1) as (q' & Hrun & Hcmp' & Hsize); [unfold pq_size; lia|].
    exists q'. unfold pq_size in Hsize.
    repeat split; [done|congruence|by rewrite Hsize, Hsz1].
  - destruct (pop_returns call q) as (q1 & -> & Hcmp & Hlen); [lia|].
    simpl. assert (Hsz1 : size (container q1) = Z.max 0 (size (container q) - 1))
      by (unfold size; lia).
    destruct (IH q1) as (q' & Hrun & Hcmp' & Hsize); [unfold pq_size; lia|].
    exists q'. unfold pq_size in Hsize.
    repeat split; [done|congruence|by rewrite Hsize, Hsz1].
Qed.

End QueueMore.

(** ** Properties of [push], [pop] and the constructors *)

Lemma top_of_root {T Compare : Type} (q : priority_queue T Compare) (r : T) :
  node (container q) 1 = Some r -> top q = Returns r.
Proof.
  intros Hr. unfold node in Hr. change (Z.to_nat (1 - 1)) with 0%nat in Hr.
  unfold top, pq_empty, front.
  assert (Hne : empty (container q) = false).
  { apply empty_false. intros Hnil. by rewrite Hnil in Hr. }
  rewrite Hne. simpl. by apply at_lookup.
Qed.

(** X1. Under any comparator, [push] on a queue with room for one more
    element returns a queue with the same comparator whose storage holds the
    old elements and the new one, each as often as before, and whose size is
    larger by one. *)
Theorem push_adds_one_element
    {T Compare : Type} (call : Compare -> T -> T -> bool)
    (q : priority_queue T Compare) (t : T) :
  pq_size q < HALF_MAX ->
  exists q',
    push call q t = Returns q' /\ compare q' = compare q /\
    pq_size q' = pq_size q + 1 /\ container q' ≡ₚ t :: container q.
Proof.
  intros Hsz.
  destruct (push_returns call q t Hsz) as (q' & Hq' & Hcmp & Hperm & Hlen).
  exists q'. repeat split; try done. unfold pq_size, size. lia.
Qed.

Lemma push_adds_one_element_witness :
  let q : priority_queue Z std_less := {| container := [9; 5; 8; 1]; compare := Less |} in
  pq_size q < HALF_MAX /\
  exists q',
    push call_less q 7 = Returns q' /\ compare q' = compare q /\
    pq_size q' = pq_size q + 1 /\ container q' ≡ₚ 7 :: container q.
Proof.
  intros q.
  assert (H1 : pq_size q < HALF_MAX) by (rewrite HALF_MAX_val; vm_compute; reflexivity).
  split; [exact H1|].
  exact (push_adds_one_element call_less q 7 H1).
Defined.

(** X2. Under any comparator, [pop] on a non-empty queue removes exactly
    the element that [top] returns: the storage before the call is the
    storage after it plus that element, and the comparator is kept. *)
Theorem pop_removes_top
    {T Compare : Type} (call : Compare -> T -> T -> bool)
    (q : priority_queue T Compare) :
  pq_empty q = false -> pq_size q <= HALF_MAX ->
  exists x q',
    top q = Returns x /\ pop call q = Returns q' /\
    compare q' = compare q /\ x :: container q' ≡ₚ container q.
Proof.
  intros He Hsz. unfold pq_size, pq_empty in *.
  destruct (pop_container_nonempty (call (compare q)) (container q)
              (proj1 (empty_false _) He) Hsz)
    as (x & y & r & Hx & _ & _ & _ & Hpop & _ & Hperm).
  exists x, (with_container q (fst r)). repeat split; try done.
  - by apply top_of_root.
  - unfold pop. by rewrite Hpop.
Qed.

Lemma pop_removes_top_witness :
  let q : priority_queue Z std_less := {| container := [9; 5; 8; 1]; compare := Less |} in
  pq_empty q = false /\ pq_size q <= HALF_MAX /\
  exists x q',
    top q = Returns x /\ pop call_less q = Returns q' /\
    compare q' = compare q /\ x :: container q' ≡ₚ container q.
Proof.
  intros q.
  assert (H1 : pq_empty q = false) by reflexivity.
  assert (H2 : pq_size q <= HALF_MAX) by (rewrite HALF_MAX_val; vm_compute; discriminate).
  split; [exact H1|]. split; [exact H2|].
  exact (pop_removes_top call_less q H1 H2).
Defined.

(** X3. On a queue that satisfies the heap invariant under a strict weak
    ordering, [top] after [push(t)] returns [t] when the old top ranks below
    [t], and the old top otherwise (also on a tie); on an empty queue it
    returns [t]. *)
Theorem top_after_push
    {T Compare : Type} (call : Compare -> T -> T -> bool)
    (q q' : priority_queue T Compare) (t : T) :
  strict_weak_order (call (compare q)) ->
  is_heap (call (compare q)) (container q) ->
  pq_size q < HALF_MAX ->
  push call q t = Returns q' ->
  top q' = Returns (match container q !! 0%nat with
                    | Some x => if call (compare q) x t then t else x
                    | None => t
                    end).
Proof.
  intros Hswo Hheap Hsz Hpush. unfold pq_size in Hsz.
  pose proof (push_heap call q t q' Hswo Hheap Hsz Hpush) as Hheap'.
  destruct (push_returns call q t Hsz) as (q'' & Hq'' & Hcmp & Hperm & _).
  rewrite Hpush in Hq''. injection Hq'' as <-.
  unfold heap_ordered in Hheap'. rewrite Hcmp in Hheap'.
  unfold push in Hpush.
  destruct (push_container (call (compare q)) (container q) t)
    as [c'| | |] eqn:Hc; simpl in Hpush; try done.
  injection Hpush as <-. simpl in *.
  apply top_of_root. simpl. unfold push_container in Hc.
  destruct (container q) as [|x0 rest] eqn:Hq; simpl.
  { change (size (push_back [] t) / 2) with 0 in Hc.
    rewrite push_loop_zero in Hc. by injection Hc as <-. }
  pose proof (size_nonneg (x0 :: rest)).
  assert (Hsz1 : size (push_back (x0 :: rest) t) = size (x0 :: rest) + 1).
  { unfold size, push_back. rewrite length_app. simpl. lia. }
  apply push_loop_root in Hc as [Hsame|(x & y & Hx & Hy & Hin & Hxy)];
    [| |lia|lia].
  - rewrite Hsame.
    assert (Hroot : c' !! 0%nat = Some x0) by exact Hsame.
    rewrite (root_maximal _ Hswo c' x0 t Hheap' Hroot); [done|].
    rewrite Hperm. left.
  - assert (x = x0) as -> by (by injection Hx).
    rewrite Hy. f_equal.
    unfold push_back in Hin. apply elem_of_app in Hin as [Hin|Hin].
    + by rewrite (root_maximal _ Hswo (x0 :: rest) x0 y Hheap eq_refl Hin) in Hxy.
    + apply list_elem_of_singleton in Hin as ->. by rewrite Hxy.
Qed.

Lemma top_after_push_witness :
  let q : priority_queue Z std_less := {| container := [9; 5; 8; 1]; compare := Less |} in
  let q' : priority_queue Z std_less := {| container := [11; 9; 8; 1; 5]; compare := Less |} in
  strict_weak_order (call_less (compare q)) /\
  is_heap (call_less (compare q)) (container q) /\
  pq_size q < HALF_MAX /\
  push call_less q 11 = Returns q' /\
  top q' = Returns (match container q !! 0%nat with
                    | Some x => if call_less (compare q) x 11 then 11 else x
                    | None => 11
                    end).
Proof.
  intros q q'.
  assert (H1 : strict_weak_order (call_less (compare q)))
    by (split; intros; order_by_lia).
  assert (H2 : is_heap (call_less (compare q)) (container q))
    by (apply is_heapb_sound; reflexivity).
  assert (H3 : pq_size q < HALF_MAX) by (rewrite HALF_MAX_val; vm_compute; reflexivity).
  assert (H4 : push call_less q 11 = Returns q') by (vm_compute; reflexivity).
  split; [exact H1|]. split; [exact H2|]. split; [exact H3|]. split; [exact H4|].
  exact (top_after_push call_less q q' 11 H1 H2 H3 H4).
Defined.

(** X4. Under any comparator, a sequence of [push] and [pop] calls returns
    a queue with the comparator it started with, and its size is the size
    obtained by counting: plus one for each [push], minus one for each [pop]
    on a non-empty queue, unchanged for a [pop] on an empty one. [empty()]
    answers whether that count is zero. *)
Theorem size_accounting
    {T Compare : Type} (call : Compare -> T -> T -> bool)
    (q : priority_queue T Compare) (ops : list (op T)) :
  pq_size q + Z.of_nat (length ops) <= HALF_MAX ->
  exists q',
    run call q ops = Returns q' /\ compare q' = compare q /\
    pq_size q' = size_after (pq_size q) ops /\
    pq_empty q' = (size_after (pq_size q) ops =? 0).
Proof.
  intros Hsz. destruct (run_size call ops q Hsz) as (q' & Hrun & Hcmp & Hsize).
  exists q'. repeat split; try done.
  unfold pq_empty, empty. by rewrite <- Hsize.
Qed.

Lemma size_accounting_witness :
  let q : priority_queue Z std_greater := {| container := [1; 5]; compare := Greater |} in
  pq_size q + Z.of_nat (length [Pop; Pop; Pop; Push 4; Push 2]) <= HALF_MAX /\
  exists q',
    run call_greater q [Pop; Pop; Pop; Push 4; Push 2] = Returns q' /\
    compare q' = compare q /\
    pq_size q' = size_after (pq_size q) [Pop; Pop; Pop; Push 4; Push 2] /\
    pq_empty q' = (size_after (pq_size q) [Pop; Pop; Pop; Push 4; Push 2] =? 0).
Proof.
  intros q.
  assert (H1 : pq_size q + Z.of_nat (length [Pop; Pop; Pop; Push 4; Push 2]) <= HALF_MAX)
    by (rewrite HALF_MAX_val; vm_compute; discriminate).
  split; [exact H1|].
  exact (size_accounting call_greater q [Pop; Pop; Pop; Push 4; Push 2] H1).
Defined.

(** X5. Under any comparator, [percolateDown(i)] with a non-wrapping index
    returns a container of the same size that holds the same elements, each
    as often as before; every heap position below [2i] other than [i] keeps
    its element; and when the call answers [false] the container is exactly
    as it was. *)
Theorem percolateDown_frame
    {T : Type} (cmp : T -> T -> bool) (c : list T) (indexHeap : Z) :
  1 <= indexHeap <= HALF_MAX -> size c <= HALF_MAX ->
  exists c' changed,
    percolateDown cmp c indexHeap = Returns (c', changed) /\
    size c' = size c /\ c' ≡ₚ c /\
    (changed = false -> c' = c) /\
    (forall p, 1 <= p -> p <> indexHeap -> p < 2 * indexHeap ->
               node c' p = node c p).
Proof.
  intros Hi Hsz.
  destruct (percolateDown_returns cmp c indexHeap Hi Hsz) as [[c' ch] Hr].
  destruct (percolateDown_fuel_frame cmp (length c) c indexHeap c' ch Hi Hsz Hr)
    as (Hlen & Hperm & Hsame & Hframe & _).
  exists c', ch. repeat split; try done. unfold size. by rewrite Hlen.
Qed.

Lemma percolateDown_frame_witness :
  1 <= 2 <= HALF_MAX /\ size [9; 1; 8; 4; 7; 3] <= HALF_MAX /\
  exists c' changed,
    percolateDown Z.ltb [9; 1; 8; 4; 7; 3] 2 = Returns (c', changed) /\
    size c' = size [9; 1; 8; 4; 7; 3] /\ c' ≡ₚ [9; 1; 8; 4; 7; 3] /\
    (changed = false -> c' = [9; 1; 8; 4; 7; 3]) /\
    (forall p, 1 <= p -> p <> 2 -> p < 2 * 2 ->
               node c' p = node [9; 1; 8; 4; 7; 3] p).
Proof.
  assert (H1 : 1 <= 2 <= HALF_MAX) by (rewrite HALF_MAX_val; lia).
  assert (H2 : size [9; 1; 8; 4; 7; 3] <= HALF_MAX)
    by (rewrite HALF_MAX_val; vm_compute; discriminate).
  split; [exact H1|]. split; [exact H2|].
  exact (percolateDown_frame Z.ltb [9; 1; 8; 4; 7; 3] 2 H1 H2).
Defined.

(** X6. The source documents [percolateDown] as returning [true] if anything
    changed. For a comparator under which no element ranks below itself
    this is exact: the answer is [true] if and only if the container after
    the call differs from the container before it. *)
Theorem percolateDown_reports_change
    {T : Type} (cmp : T -> T -> bool) (c c' : list T) (indexHeap : Z)
    (changed : bool) :
  (forall x, cmp x x = false) ->
  1 <= indexHeap <= HALF_MAX -> size c <= HALF_MAX ->
  percolateDown cmp c indexHeap = Returns (c', changed) ->
  (changed = true <-> c' <> c).
Proof.
  intros Hirr Hi Hsz Hr. destruct changed.
  - split; [|done]. intros _ Heq.
    destruct (percolateDown_fuel_swapped cmp (length c) c indexHeap c' Hi Hsz Hr)
      as (x & y & Hx & _ & Hxy & Hy).
    rewrite Heq, Hx in Hy. injection Hy as ->. by rewrite Hirr in Hxy.
  - destruct (percolateDown_fuel_frame cmp (length c) c indexHeap c' false Hi Hsz Hr)
      as (_ & _ & Hsame & _).
    split; [done|]. intros Hne. by destruct Hne; apply Hsame.
Qed.

Lemma percolateDown_reports_change_witness :
  (forall x, (x <? x) = false) /\
  1 <= 1 <= HALF_MAX /\ size [1; 9; 8] <= HALF_MAX /\
  percolateDown Z.ltb [1; 9; 8] 1 = Returns ([9; 1; 8], true) /\
  (true = true <-> [9; 1; 8] <> [1; 9; 8]).
Proof.
  assert (H0 : forall x, (x <? x) = false) by (intros x; lia).
  assert (H1 : 1 <= 1 <= HALF_MAX) by (rewrite HALF_MAX_val; lia).
  assert (H2 : size [1; 9; 8] <= HALF_MAX)
    by (rewrite HALF_MAX_val; vm_compute; discriminate).
  assert (H3 : percolateDown Z.ltb [1; 9; 8] 1 = Returns ([9; 1; 8], true))
    by (vm_compute; reflexivity).
  split; [exact H0|]. split; [exact H1|]. split; [exact H2|]. split; [exact H3|].
  exact (percolateDown_reports_change Z.ltb [1; 9; 8] [9; 1; 8] 1 true H0 H1 H2 H3).
Defined.

(** X7. The contract of [percolateDown(i)] under a strict weak ordering.
    If the heap property holds at every position other than [i], then after
    the call it holds at every position other than the parent [i / 2] (so
    everywhere for [i = 1]). If it holds at every position after [i], then
    after the call it holds at [i] and at every position after it. *)
Theorem percolateDown_restores_heap
    {T : Type} (cmp : T -> T -> bool) (c : list T) (indexHeap : Z) :
  strict_weak_order cmp ->
  1 <= indexHeap <= HALF_MAX -> size c <= HALF_MAX ->
  exists c' changed,
    percolateDown cmp c indexHeap = Returns (c', changed) /\
    ((forall j, 1 <= j -> j <> indexHeap -> heap_at cmp c j) ->
     forall j, 1 <= j -> j <> indexHeap / 2 -> heap_at cmp c' j) /\
    ((forall j, indexHeap < j -> heap_at cmp c j) ->
     forall j, indexHeap <= j -> heap_at cmp c' j).
Proof.
  intros Hswo Hi Hsz.
  destruct (percolateDown_returns cmp c indexHeap Hi Hsz) as [[c' ch] Hr].
  exists c', ch. split; [done|]. split.
  - intros Hpre j Hj Hne.
    apply (percolateDown_fuel_heap cmp Hswo (length c) c indexHeap
             (fun _ => False) c' ch); try done; auto.
  - intros Hpre j Hj.
    apply (percolateDown_fuel_heap cmp Hswo (length c) c indexHeap
             (fun j => j < indexHeap) c' ch); try done; try lia.
    intros k Hk Hge Hne. apply Hpre. lia.
Qed.

Lemma percolateDown_restores_heap_witness :
  strict_weak_order Z.ltb /\
  1 <= 1 <= HALF_MAX /\ size [1; 9; 8] <= HALF_MAX /\
  (forall j, 1 <= j -> j <> 1 -> heap_at Z.ltb [1; 9; 8] j) /\
  (forall j, 1 < j -> heap_at Z.ltb [1; 9; 8] j) /\
  exists c' changed,
    percolateDown Z.ltb [1; 9; 8] 1 = Returns (c', changed) /\
    (forall j, 1 <= j -> j <> 1 / 2 -> heap_at Z.ltb c' j) /\
    (forall j, 1 <= j -> heap_at Z.ltb c' j).
Proof.
  assert (H0 : strict_weak_order Z.ltb) by (split; intros; lia).
  assert (H1 : 1 <= 1 <= HALF_MAX) by (rewrite HALF_MAX_val; lia).
  assert (H2 : size [1; 9; 8] <= HALF_MAX)
    by (rewrite HALF_MAX_val; vm_compute; discriminate).
  assert (H3 : forall j, 1 < j -> heap_at Z.ltb [1; 9; 8] j).
  { intros j Hj. apply heap_at_leaf; [lia|]. change (size [1; 9; 8]) with 3. lia. }
  assert (H4 : forall j, 1 <= j -> j <> 1 -> heap_at Z.ltb [1; 9; 8] j)
    by (intros j Hj Hne; apply H3; lia).
  split; [exact H0|]. split; [exact H1|]. split; [exact H2|].
  split; [exact H4|]. split; [exact H3|].
  destruct (percolateDown_restores_heap Z.ltb [1; 9; 8] 1 H0 H1 H2)
    as (c' & changed & Hr & Hall & Hsub).
  exists c', changed. split; [exact Hr|].
  split; [exact (Hall H4)|exact (Hsub H3)].
Defined.

(** X8. Under any comparator, [percolateDown(i)] at a position where the
    parent ranks below neither existing child, and in particular at a
    position without children, swaps nothing: it answers [false] and returns
    the container as it is. *)
Theorem percolateDown_ordered_node_unchanged
    {T : Type} (cmp : T -> T -> bool) (c : list T) (indexHeap : Z) :
  1 <= indexHeap <= HALF_MAX ->
  (heap_at cmp c indexHeap -> percolateDown cmp c indexHeap = Returns (c, false)) /\
  (size c < 2 * indexHeap -> percolateDown cmp c indexHeap = Returns (c, false)).
Proof.
  intros Hi. split.
  - by apply percolateDown_at_ordered.
  - intros Hleaf. apply percolateDown_at_ordered; [done|].
    apply heap_at_leaf; lia.
Qed.

Lemma percolateDown_ordered_node_unchanged_witness :
  1 <= 2 <= HALF_MAX /\
  heap_at Z.ltb [1; 7; 9; 4] 2 /\ size [1; 7; 9] < 2 * 2 /\
  percolateDown Z.ltb [1; 7; 9; 4] 2 = Returns ([1; 7; 9; 4], false) /\
  percolateDown Z.ltb [1; 7; 9] 2 = Returns ([1; 7; 9], false).
Proof.
  assert (H1 : 1 <= 2 <= HALF_MAX) by (rewrite HALF_MAX_val; lia).
  assert (H2 : heap_at Z.ltb [1; 7; 9; 4] 2).
  { intros s x y [-> | ->] Hx Hy; vm_compute in Hx, Hy; [|discriminate].
    injection Hx as <-. injection Hy as <-. reflexivity. }
  assert (H3 : size [1; 7; 9] < 2 * 2) by (vm_compute; reflexivity).
  split; [exact H1|]. split; [exact H2|]. split; [exact H3|].
  split.
  - exact (proj1 (percolateDown_ordered_node_unchanged Z.ltb [1; 7; 9; 4] 2 H1) H2).
  - exact (proj2 (percolateDown_ordered_node_unchanged Z.ltb [1; 7; 9] 2 H1) H3).
Defined.

(** X9. Under a strict weak ordering [heapify] is idempotent: running it on
    its own result changes nothing. *)
Theorem heapify_idempotent
    {T Compare : Type} (call : Compare -> T -> T -> bool)
    (q q' : priority_queue T Compare) :
  strict_weak_order (call (compare q)) ->
  pq_size q <= HALF_MAX ->
  heapify call q = Returns q' ->
  heapify call q' = Returns q'.
Proof.
  intros Hswo Hsz. unfold heapify, pq_size in *.
  destruct (heapify_container_returns (call (compare q)) (container q) Hsz)
    as (c' & Hc & _ & Hlen).
  rewrite Hc. simpl. intros [= <-]. simpl.
  rewrite heapify_container_ordered.
  - done.
  - unfold size in *. by rewrite Hlen.
  - by apply (heapify_container_heap _ Hswo (container q)).
Qed.

Lemma heapify_idempotent_witness :
  let q : priority_queue Z std_less := {| container := sample; compare := Less |} in
  let q' : priority_queue Z std_less := {| container := [9; 5; 8; 1; 3; 2]; compare := Less |} in
  strict_weak_order (call_less (compare q)) /\
  pq_size q <= HALF_MAX /\
  heapify call_less q = Returns q' /\
  heapify call_less q' = Returns q'.
Proof.
  intros q q'.
  assert (H1 : strict_weak_order (call_less (compare q)))
    by (split; intros; order_by_lia).
  assert (H2 : pq_size q <= HALF_MAX) by (rewrite HALF_MAX_val; vm_compute; discriminate).
  assert (H3 : heapify call_less q = Returns q') by (vm_compute; reflexivity).
  split; [exact H1|]. split; [exact H2|]. split; [exact H3|].
  exact (heapify_idempotent call_less q q' H1 H2 H3).
Defined.

(** X10. The constructor that takes a container by move returns, under any
    comparator, a queue with the given comparator whose storage holds the
    elements of the container, each as often as before; when the comparator
    is a strict weak ordering the queue satisfies the heap invariant. *)
Theorem heapify_constructor_builds_heap
    {T Compare : Type} (call : Compare -> T -> T -> bool)
    (k : Compare) (rhs : list T) :
  size rhs <= HALF_MAX ->
  exists q,
    pq_of_container call k rhs = Returns q /\ compare q = k /\
    pq_size q = size rhs /\ container q ≡ₚ rhs /\
    (strict_weak_order (call k) -> is_heap (call k) (container q)).
Proof.
  intros Hsz. unfold pq_of_container, heapify. simpl.
  destruct (heapify_container_returns (call k) rhs Hsz) as (c' & Hc & Hperm & Hlen).
  rewrite Hc. simpl. eexists. repeat split; try done.
  - unfold pq_size, size. simpl. by rewrite Hlen.
  - intros Hswo. simpl. by apply (heapify_container_heap _ Hswo rhs).
Qed.

Lemma heapify_constructor_builds_heap_witness :
  size sample <= HALF_MAX /\
  strict_weak_order (call_greater Greater) /\
  exists q,
    pq_of_container call_greater Greater sample = Returns q /\
    compare q = Greater /\
    pq_size q = size sample /\ container q ≡ₚ sample /\
    is_heap (call_greater Greater) (container q).
Proof.
  assert (H1 : size sample <= HALF_MAX)
    by (rewrite HALF_MAX_val; vm_compute; discriminate).
  assert (H2 : strict_weak_order (call_greater Greater))
    by (split; intros; order_by_lia).
  split; [exact H1|]. split; [exact H2|].
  destruct (heapify_constructor_builds_heap call_greater Greater sample H1)
    as (q & Hq & Hk & Hsize & Hperm & Hheap).
  exists q. split; [exact Hq|]. split; [exact Hk|]. split; [exact Hsize|].
  split; [exact Hperm|exact (Hheap H2)].
Defined.

(** X11. Heap index 0 is never valid: for every comparator and container
    [percolateDown(0)] reads [container[0 - 1]], outside the storage. The
    loops of [push] and [heapify] stop before they reach it. *)
Theorem percolateDown_zero_reads_outside
    {T : Type} (cmp : T -> T -> bool) (c : list T) :
  size c <= SIZE_MAX -> percolateDown cmp c 0 = Undefined.
Proof.
  intros Hsz. unfold percolateDown.
  destruct (length c); simpl; by rewrite percolate_step_zero.
Qed.

Lemma percolateDown_zero_reads_outside_witness :
  size [3; 4] <= SIZE_MAX /\ percolateDown Z.ltb [3; 4] 0 = Undefined.
Proof.
  assert (H1 : size [3; 4] <= SIZE_MAX)
    by (rewrite SIZE_MAX_val; vm_compute; discriminate).
  split; [exact H1|].
  exact (percolateDown_zero_reads_outside Z.ltb [3; 4] H1).
Defined.

(** X12. On a container that already satisfies the heap property, the
    constructor that heapifies and the constructor that stores the container
    as it is build the same queue, under any comparator. *)
Theorem heapify_constructor_on_heap
    {T Compare : Type} (call : Compare -> T -> T -> bool)
    (k : Compare) (rhs : list T) :
  size rhs <= HALF_MAX -> is_heap (call k) rhs ->
  pq_of_container call k rhs = Returns (pq_adopt k rhs).
Proof.
  intros Hsz Hheap. unfold pq_of_container, heapify, pq_adopt. simpl.
  by rewrite heapify_container_ordered.
Qed.

Lemma heapify_constructor_on_heap_witness :
  size [9; 5; 8; 1] <= HALF_MAX /\ is_heap (call_less Less) [9; 5; 8; 1] /\
  pq_of_container call_less Less [9; 5; 8; 1] = Returns (pq_adopt Less [9; 5; 8; 1]).
Proof.
  assert (H1 : size [9; 5; 8; 1] <= HALF_MAX)
    by (rewrite HALF_MAX_val; vm_compute; discriminate).
  assert (H2 : is_heap (call_less Less) [9; 5; 8; 1])
    by (apply is_heapb_sound; reflexivity).
  split; [exact H1|]. split; [exact H2|].
  exact (heapify_constructor_on_heap call_less Less [9; 5; 8; 1] H1 H2).
Defined.

(** X13. The range constructor returns, under any comparator, a queue whose
    comparator is the constructor's argument (a default-constructed one when
    none is supplied), whose size is the length of the range and whose
    storage holds the elements of the range, each as often as in the range;
    an empty range gives an empty queue. *)
Theorem range_constructor_keeps_elements
    {T Compare : Type} (Compare_default : Compare)
    (call : Compare -> T -> T -> bool) (range : list T) (oc : option Compare) :
  size range <= HALF_MAX ->
  exists q,
    pq_of_range Compare_default call range oc = Returns q /\
    compare q = default_arg Compare_default oc /\
    pq_size q = size range /\ container q ≡ₚ range /\
    pq_empty q = empty range.
Proof.
  intros Hsz. unfold pq_of_range.
  destruct (push_range_returns call range
              {| container := []; compare := default_arg Compare_default oc |})
    as (q & Hq & Hcmp & Hperm); [done|].
  simpl in *. exists q. repeat split; try done.
  - unfold pq_size, size. by rewrite Hperm.
  - unfold pq_empty, empty, size. by rewrite Hperm.
Qed.

Lemma range_constructor_keeps_elements_witness :
  size sample <= HALF_MAX /\
  exists q,
    pq_of_range Less call_less sample None = Returns q /\
    compare q = default_arg Less None /\
    pq_size q = size sample /\ container q ≡ₚ sample /\
    pq_empty q = empty sample.
Proof.
  assert (H1 : size sample <= HALF_MAX)
    by (rewrite HALF_MAX_val; vm_compute; discriminate).
  split; [exact H1|].
  exact (range_constructor_keeps_elements Less call_less sample None H1).
Defined.

Lemma push_loop_settled {T : Type} (cmp : T -> T -> bool) (fuel : nat)
    (c c' : list T) (index : Z) :
  index <> 0 -> percolateDown cmp c index = Returns (c', false) ->
  push_loop fuel cmp c index = Returns c'.
Proof.
  intros Hne Hr. apply Z.eqb_neq in Hne.
  destruct fuel; simpl; by rewrite Hne, Hr.
Qed.

(** X14. On a queue that satisfies the heap property, under any comparator,
    [push(t)] of an element that its parent position does not rank below
    only appends: the storage afterwards is the old storage followed by
    [t]. *)
Theorem push_below_parent_appends
    {T Compare : Type} (call : Compare -> T -> T -> bool)
    (q : priority_queue T Compare) (t : T) :
  is_heap (call (compare q)) (container q) ->
  pq_size q < HALF_MAX ->
  (forall p, node (container q) ((pq_size q + 1) / 2) = Some p ->
             call (compare q) p t = false) ->
  push call q t = Returns (with_container q (container q ++ [t])).
Proof.
  intros Hheap Hsz Hparent. unfold pq_size in *. unfold push, push_container.
  set (c := container q) in *. pose proof (size_nonneg c).
  assert (Hsz1 : size (push_back c t) = size c + 1).
  { unfold size, push_back. rewrite length_app. simpl. lia. }
  rewrite Hsz1.
  destruct (decide ((size c + 1) / 2 = 0)) as [->|Hne].
  { by rewrite push_loop_zero. }
  rewrite (push_loop_settled _ 64 (push_back c t) (push_back c t)); try done.
  apply percolateDown_at_ordered; [lia|].
  intros s x y Hs Hx Hy.
  pose proof (node_push_back_Some (call (compare q)) c t s y ltac:(lia) Hy) as Hle.
  rewrite (node_push_back_old (call (compare q))) in Hx by lia.
  destruct (decide (s = size c + 1)) as [->|Hs'].
  - unfold node, push_back, size in Hy.
    replace (Z.to_nat (Z.of_nat (length c) + 1 - 1)) with (length c) in Hy by lia.
    rewrite list_lookup_middle in Hy by done. injection Hy as <-.
    by apply Hparent.
  - rewrite (node_push_back_old (call (compare q))) in Hy by lia.
    apply (Hheap ((size c + 1) / 2) ltac:(lia) s x y); (done || lia).
Qed.

Lemma push_below_parent_appends_witness :
  let q : priority_queue Z std_less := {| container := [9; 5; 8; 1]; compare := Less |} in
  is_heap (call_less (compare q)) (container q) /\
  pq_size q < HALF_MAX /\
  (forall p, node (container q) ((pq_size q + 1) / 2) = Some p ->
             call_less (compare q) p 5 = false) /\
  push call_less q 5 = Returns (with_container q (container q ++ [5])).
Proof.
  intros q.
  assert (H1 : is_heap (call_less (compare q)) (container q))
    by (apply is_heapb_sound; reflexivity).
  assert (H2 : pq_size q < HALF_MAX) by (rewrite HALF_MAX_val; vm_compute; reflexivity).
  assert (H3 : forall p, node (container q) ((pq_size q + 1) / 2) = Some p ->
                         call_less (compare q) p 5 = false).
  { intros p Hp. vm_compute in Hp. injection Hp as <-. reflexivity. }
  split; [exact H1|]. split; [exact H2|]. split; [exact H3|].
  exact (push_below_parent_appends call_less q 5 H1 H2 H3).
Defined.
